(** * cacophony-processing: the polling scheduler of [main.py] and
      [format_track_data] of [processing/thermal.py]

    A shallow embedding of the two source files.  Python objects that are
    mutated in place ([Processor.in_progress], the track dictionaries) are
    threaded through explicitly; everything the code reaches outside the
    repository (the job API, the pebble futures, the logger, [time.sleep])
    lives in a [World] whose [trace] records the calls in program order. *)

From Stdlib Require Import List ZArith String Ascii Bool Lia DecimalString.
From Stdlib Require Import QArith Qround.
Import ListNotations.
Open Scope string_scope.
Open Scope list_scope.
Open Scope Z_scope.

(** ** Python dictionaries

    A [dict] keeps its keys in insertion order and [reap_completed] walks
    [list(self.in_progress.items())], so a dictionary is an association
    list with pairwise distinct keys ([dict_wf]). *)

Module PyDict.
Section Dict.
Context {K V : Type}.
Variable eqb : K -> K -> bool.

Definition dict := list (K * V).

Definition dict_wf (d : dict) : Prop := NoDup (map fst d).

(** [d.get(k)] *)
Fixpoint dict_get (k : K) (d : dict) : option V :=
  match d with
  | [] => None
  | (k', v) :: rest => if eqb k k' then Some v else dict_get k rest
  end.

(** [k in d] *)
Definition dict_mem (k : K) (d : dict) : bool :=
  match dict_get k d with Some _ => true | None => false end.

Definition dict_remove (k : K) (d : dict) : dict :=
  filter (fun e => negb (eqb k (fst e))) d.

(** [del d[k]]: [None] stands for the [KeyError] of a missing key. *)
Definition dict_del (k : K) (d : dict) : option dict :=
  if dict_mem k d then Some (dict_remove k d) else None.

(** [d[k] = v]: an existing key keeps its place, a new one goes last. *)
Fixpoint dict_set (k : K) (v : V) (d : dict) : dict :=
  match d with
  | [] => [(k, v)]
  | (k', v') :: rest =>
      if eqb k k' then (k', v) :: rest else (k', v') :: dict_set k v rest
  end.

(** [len(d)] *)
Definition dict_len (d : dict) : Z := Z.of_nat (List.length d).

End Dict.
End PyDict.
Import PyDict.

(** ** What the scheduler handles

    A job handed out by [api.next_job] is a JSON object; the scheduler reads
    its ["id"] and ["type"] entries and passes the rest on untouched.  A job
    is taken to have both entries. *)

Record Recording := { rec_id : Z; rec_type : string }.

(** A pebble future is known to the scheduler through a handle; what it
    answers to [done()] and [exception()] is decided by the worker pool. *)
Definition handle := nat.

(** The exception object a failed future hands back: [str(err)] and the
    [traceback] attribute the log line reads.  pebble sets that attribute on
    errors raised inside the worker function; [None] is an error object
    without it. *)
Record PyErr := { err_str : string; err_traceback : option string }.

Inductive FutState :=
| Pending
| Finished (exc : option PyErr).

(** Exceptions travelling through [poll]. *)
Inductive exn :=
| AttributeError (attr : string)
| KeyError (key : string)
| RemoteError (msg : string).

Inductive result (A : Type) :=
| Ret (a : A)
| Raise (e : exn).
Arguments Ret {A} a.
Arguments Raise {A} e.

Definition is_raise {A} (r : result A) : bool :=
  match r with Raise _ => true | Ret _ => false end.

(** What [api.next_job] does on one call. *)
Inductive ApiResult :=
| ApiNone
| ApiJob (r : Recording)
| ApiRaise (e : exn).

(** The three worker functions registered by [main]. *)
Inductive Handler := audio_convert_process | audio_analysis_process | thermal_process.

Inductive Level := DEBUG | INFO | ERROR.

(** Calls that leave the scheduler, in program order.  [EvPoll i] marks the
    main loop calling [poll()] on its [i]-th processor. *)
Inductive Event :=
| EvPoll (i : nat)
| EvNextJob (recording_type processing_state : string)
| EvSchedule (process_func : Handler) (recording : Recording) (future : handle)
| EvLog (lvl : Level) (msg : string)
| EvSleep (secs : Z).

Record World := {
  futures : handle -> FutState;
  job_source : nat -> string -> string -> ApiResult;
  api_calls : nat;
  next_handle : handle;
  trace : list Event
}.

Record Processor := {
  recording_type : string;
  processing_state : string;
  process_func : Handler;
  num_workers : Z;
  in_progress : list (Z * handle)
}.

Definition SLEEP_SECS : Z := 2.

Definition with_in_progress (d : list (Z * handle)) (p : Processor) : Processor :=
  {| recording_type := recording_type p;
     processing_state := processing_state p;
     process_func := process_func p;
     num_workers := num_workers p;
     in_progress := d |}.

Definition add_events (evs : list Event) (w : World) : World :=
  {| futures := futures w;
     job_source := job_source w;
     api_calls := api_calls w;
     next_handle := next_handle w;
     trace := trace w ++ evs |}.

Definition add_event (e : Event) (w : World) : World := add_events [e] w.

Definition count_call (w : World) : World :=
  {| futures := futures w;
     job_source := job_source w;
     api_calls := S (api_calls w);
     next_handle := next_handle w;
     trace := trace w |}.

Definition fresh_handle (w : World) : World :=
  {| futures := futures w;
     job_source := job_source w;
     api_calls := api_calls w;
     next_handle := S (next_handle w);
     trace := trace w |}.

(** The workers make progress while the scheduler sleeps: a new snapshot of
    what every future answers. *)
Definition with_futures (f : handle -> FutState) (w : World) : World :=
  {| futures := f;
     job_source := job_source w;
     api_calls := api_calls w;
     next_handle := next_handle w;
     trace := trace w |}.

(** ** A state-and-exception monad for the methods of [Processor]

    The state is [self] and the world; an exception keeps the mutations
    made before it, as in Python. *)

Definition M (A : Type) : Type :=
  Processor * World -> result A * (Processor * World).

Definition ret {A} (a : A) : M A := fun s => (Ret a, s).

Definition raise {A} (e : exn) : M A := fun s => (Raise e, s).

Definition bind {A B} (m : M A) (k : A -> M B) : M B :=
  fun s =>
    match m s with
    | (Ret a, s') => k a s'
    | (Raise e, s') => (Raise e, s')
    end.

Notation "x <- m ;; k" := (bind m (fun x => k))
  (at level 61, m at next level, right associativity).
Notation "m ;; k" := (bind m (fun _ => k))
  (at level 61, right associativity).

Fixpoint for_each {A} (l : list A) (body : A -> M unit) : M unit :=
  match l with
  | [] => ret tt
  | x :: rest => body x ;; for_each rest body
  end.

(** [self.<field>] *)
Definition self {A} (field : Processor -> A) : M A :=
  fun s => (Ret (field (fst s)), s).

Definition emit (e : Event) : M unit :=
  fun s => (Ret tt, (fst s, add_event e (snd s))).

Definition is_done (st : FutState) : bool :=
  match st with Pending => false | Finished _ => true end.

(** [future.done()] *)
Definition future_done (future : handle) : M bool :=
  fun s => (Ret (is_done (futures (snd s) future)), s).

(** [future.exception()], called on finished futures only (on a pending
    one it would wait for the worker). *)
Definition future_exception (future : handle) : M (option PyErr) :=
  fun s =>
    (Ret (match futures (snd s) future with
          | Finished exc => exc
          | Pending => None
          end), s).

(** [err.traceback] *)
Definition getattr_traceback (err : PyErr) : M string :=
  match err_traceback err with
  | Some tb => ret tb
  | None => raise (AttributeError "traceback")
  end.

Definition logger_debug (msg : string) : M unit := emit (EvLog DEBUG msg).
Definition logger_error (msg : string) : M unit := emit (EvLog ERROR msg).

(** [str(n)] of a Python int *)
Definition str_of_int (n : Z) : string := NilZero.string_of_int (Z.to_int n).

Definition newline : string := String (ascii_of_nat 10) EmptyString.

(** [del self.in_progress[recording_id]] *)
Definition del_in_progress (recording_id : Z) : M unit :=
  fun s =>
    match dict_del Z.eqb recording_id (in_progress (fst s)) with
    | Some d => (Ret tt, (with_in_progress d (fst s), snd s))
    | None => (Raise (KeyError (str_of_int recording_id)), s)
    end.

(** [self.in_progress[recording_id] = future] *)
Definition set_in_progress (recording_id : Z) (future : handle) : M unit :=
  fun s =>
    (Ret tt,
     (with_in_progress (dict_set Z.eqb recording_id future (in_progress (fst s)))
        (fst s),
      snd s)).

(** [self.api.next_job(recording_type, processing_state)]: the API object is
    shared by all processors, its [n]-th call is answered by [job_source n]. *)
Definition api_next_job (rt ps : string) : M (option Recording) :=
  fun s =>
    let w := snd s in
    let w' := add_event (EvNextJob rt ps) (count_call w) in
    match job_source w (api_calls w) rt ps with
    | ApiNone => (Ret None, (fst s, w'))
    | ApiJob r => (Ret (Some r), (fst s, w'))
    | ApiRaise e => (Raise e, (fst s, w'))
    end.

(** [self.pool.schedule(self.process_func, (recording, self.conf))], on a
    pool that is running: a new future comes back. *)
Definition pool_schedule (f : Handler) (recording : Recording) : M handle :=
  fun s =>
    let w := snd s in
    (Ret (next_handle w),
     (fst s, add_event (EvSchedule f recording (next_handle w)) (fresh_handle w))).

(** ** [class Processor] *)

Definition Processor_init (rt ps : string) (f : Handler) (n : Z) : Processor :=
  {| recording_type := rt;
     processing_state := ps;
     process_func := f;
     num_workers := n;
     in_progress := [] |}.

(** The text of the error logged for a failed job. *)
Definition failed_msg (rt ps : string) (recording_id : Z) (err tb : string) : string :=
  (rt ++ "." ++ ps ++ " processing of " ++ str_of_int recording_id
      ++ " failed: " ++ err ++ ":" ++ newline ++ tb)%string.

(** The body of the loop of [reap_completed]. *)
Definition reap_one (item : Z * handle) : M unit :=
  let '(recording_id, future) := item in
  d <- future_done future ;;
  if d then
    del_in_progress recording_id ;;
    err <- future_exception future ;;
    match err with
    | Some err =>
        tb <- getattr_traceback err ;;
        rt <- self recording_type ;;
        ps <- self processing_state ;;
        logger_error (failed_msg rt ps recording_id (err_str err) tb)
    | None => ret tt
    end
  else ret tt.

Definition reap_completed : M unit :=
  items <- self in_progress ;;
  for_each items reap_one.

Definition scheduling_msg (recording : Recording) (ps : string) : string :=
  ("scheduling " ++ str_of_int (rec_id recording) ++ " ("
      ++ rec_type recording ++ ": " ++ ps ++ ")")%string.

Definition poll : M unit :=
  reap_completed ;;
  n <- self (fun p => dict_len (in_progress p)) ;;
  cap <- self num_workers ;;
  if n >=? cap then ret tt
  else
    rt <- self recording_type ;;
    ps <- self processing_state ;;
    recording <- api_next_job rt ps ;;
    match recording with
    | Some recording =>
        logger_debug (scheduling_msg recording ps) ;;
        f <- self process_func ;;
        future <- pool_schedule f recording ;;
        set_in_progress (rec_id recording) future
    | None => ret tt
    end.

(** Successive ticks of one processor; before each tick the futures take
    the state the workers have reached meanwhile. *)
Fixpoint run_ticks (snaps : list (handle -> FutState)) (s : Processor * World)
  : Processor * World :=
  match snaps with
  | [] => s
  | f :: rest => run_ticks rest (snd (poll (fst s, with_futures f (snd s))))
  end.

(** ** [class Processors(list)] and the loop of [main] *)

Definition add (rt ps : string) (f : Handler) (n : Z) (self : list Processor)
  : list Processor :=
  if n <? 1 then self else self ++ [Processor_init rt ps f n].

(** [for processor in processors: processor.poll()], the first exception
    leaving the loop. *)
Fixpoint poll_all (i : nat) (processors : list Processor) (w : World)
  : result unit * list Processor * World :=
  match processors with
  | [] => (Ret tt, [], w)
  | p :: rest =>
      match poll (p, add_event (EvPoll i) w) with
      | (Ret _, (p', w')) =>
          let '(r, rest', w'') := poll_all (S i) rest w' in
          (r, p' :: rest', w'')
      | (Raise e, (p', w')) => (Raise e, p' :: rest, w')
      end
  end.

(** [traceback.format_exc()]: the kind of the exception and its argument
    stand for the text; the interpreter's wording of the message and the
    stack frames before it are not reproduced. *)
Definition format_exc (e : exn) : string :=
  match e with
  | AttributeError a => ("AttributeError: " ++ a)%string
  | KeyError k => ("KeyError: " ++ k)%string
  | RemoteError m => m
  end.

(** One turn of [while True]: the [try] spans the whole [for] loop. *)
Definition main_pass (processors : list Processor) (w : World)
  : list Processor * World :=
  let '(r, processors', w') := poll_all 0 processors w in
  let w'' :=
    match r with
    | Raise e => add_event (EvLog ERROR (format_exc e)) w'
    | Ret _ => w'
    end in
  (processors', add_event (EvSleep SLEEP_SECS) w'').

Fixpoint main_loop (snaps : list (handle -> FutState))
  (processors : list Processor) (w : World) : list Processor * World :=
  match snaps with
  | [] => (processors, w)
  | f :: rest =>
      let '(processors', w') := main_pass processors (with_futures f w) in
      main_loop rest processors' w'
  end.

Record Config := {
  audio_convert_workers : Z;
  audio_analysis_workers : Z;
  thermal_workers : Z
}.

(** [main], for as many passes as there are snapshots. *)
Definition main (conf : Config) (snaps : list (handle -> FutState)) (w : World)
  : list Processor * World :=
  let processors := [] in
  let processors := add "audio" "toMp3" audio_convert_process
                        (audio_convert_workers conf) processors in
  let processors := add "audio" "analyse" audio_analysis_process
                        (audio_analysis_workers conf) processors in
  let processors := add "thermalRaw" "getMetadata" thermal_process
                        (thermal_workers conf) processors in
  main_loop snaps processors (add_event (EvLog INFO "checking for recordings") w).

(** ** Reading the trace *)

Definition is_next_job (e : Event) : bool :=
  match e with EvNextJob _ _ => true | _ => false end.

Definition is_schedule (e : Event) : bool :=
  match e with EvSchedule _ _ _ => true | _ => false end.

Definition is_log (e : Event) : bool :=
  match e with EvLog _ _ => true | _ => false end.

Definition polled (evs : list Event) (i : nat) : bool :=
  existsb (fun e => match e with EvPoll j => Nat.eqb i j | _ => false end) evs.

Definition count_next_job (evs : list Event) : nat :=
  List.length (filter is_next_job evs).

(** The trace only grows: what was added between two worlds. *)
Definition emitted (w w' : World) : list Event :=
  skipn (List.length (trace w)) (trace w').

(** ** Reading the reap loop

    [err.traceback] is read while the log line is built; on an error object
    without the attribute the read raises and the loop ends there. *)

Definition report_raises (w : World) (item : Z * handle) : bool :=
  match futures w (snd item) with
  | Finished (Some err) =>
      match err_traceback err with None => true | Some _ => false end
  | _ => false
  end.

(** The items the loop of [reap_completed] gets to. *)
Fixpoint examined (w : World) (items : list (Z * handle)) : list (Z * handle) :=
  match items with
  | [] => []
  | item :: rest =>
      item :: (if report_raises w item then [] else examined w rest)
  end.

Definition item_done (w : World) (item : Z * handle) : bool :=
  is_done (futures w (snd item)).

(** The items whose [done()] answered [True] in the loop. *)
Definition reaped (w : World) (items : list (Z * handle)) : list (Z * handle) :=
  filter (item_done w) (examined w items).

Definition has_key (l : list (Z * handle)) (item : Z * handle) : bool :=
  existsb (fun x => Z.eqb (fst x) (fst item)) l.

(** The error line a reap writes for one item, if any. *)
Definition failure_log (rt ps : string) (w : World) (item : Z * handle)
  : list Event :=
  match futures w (snd item) with
  | Finished (Some err) =>
      match err_traceback err with
      | Some tb => [EvLog ERROR (failed_msg rt ps (fst item) (err_str err) tb)]
      | None => []
      end
  | _ => []
  end.

Definition failure_logs (rt ps : string) (w : World) (items : list (Z * handle))
  : list Event :=
  flat_map (failure_log rt ps w) items.

(** From its next call on, the job source hands out no job with this id
    (it does not hand out a job again while the scheduler tracks it). *)
Definition hands_out_no_more (id : Z) (w : World) : Prop :=
  forall n rt ps r,
    (api_calls w <= n)%nat -> job_source w n rt ps = ApiJob r -> rec_id r <> id.

(** The processors the main loop can be ticking: built by [add], then
    ticked any number of times in any world. *)
Inductive tick_reachable : Processor -> Prop :=
| reach_add rt ps f n p :
    add rt ps f n [] = [p] -> tick_reachable p
| reach_poll p w :
    tick_reachable p -> tick_reachable (fst (snd (poll (p, w)))).

(** ** [thermal.format_track_data]

    The classifier's tracks are JSON objects.  The function deletes a key
    from the very dictionaries the caller passed in, so the dictionaries sit
    in a heap and the list holds their addresses. *)

#[warnings="-register-all"]
Inductive pyval :=
| PyNull
| PyBool (b : bool)
| PyInt (n : Z)
| PyStr (s : string)
| PyArr (l : list pyval).

Definition ref := nat.
Definition Track := list (string * pyval).
Definition Heap := ref -> Track.

Definition heap_set (r : ref) (t : Track) (h : Heap) : Heap :=
  fun r' => if Nat.eqb r' r then t else h r'.

(** The argument: [classify_info["tracks"]], a JSON array of objects or null. *)
Inductive TracksArg :=
| TracksNone
| TracksList (tracks : list ref).

(** The value returned: the literal [{}] or the list that came in. *)
Inductive Formatted :=
| EmptyDict
| SameList (tracks : list ref).

(** [not tracks] *)
Definition falsy (tracks : TracksArg) : bool :=
  match tracks with
  | TracksNone => true
  | TracksList [] => true
  | TracksList (_ :: _) => false
  end.

Definition items_of (tracks : TracksArg) : list ref :=
  match tracks with TracksNone => [] | TracksList l => l end.

(** The [for track in tracks] loop. *)
Fixpoint drop_frame_start (tracks : list ref) (h : Heap) : result unit * Heap :=
  match tracks with
  | [] => (Ret tt, h)
  | track :: rest =>
      if dict_mem String.eqb "frame_start" (h track) then
        match dict_del String.eqb "frame_start" (h track) with
        | Some t => drop_frame_start rest (heap_set track t h)
        | None => (Raise (KeyError "frame_start"), h)
        end
      else drop_frame_start rest h
  end.

Definition format_track_data (tracks : TracksArg) (h : Heap)
  : result Formatted * Heap :=
  if falsy tracks then (Ret EmptyDict, h)
  else
    match drop_frame_start (items_of tracks) h with
    | (Ret _, h') => (Ret (SameList (items_of tracks)), h')
    | (Raise e, h') => (Raise e, h')
    end.

(** ** The worker side of [thermal.py]: [upload_tracks] and
    [update_metadata]

    The worker talks to the API; its calls are recorded in program order,
    a track as its dictionary stood at the call.  What the API answers is
    given call by call. *)

(** JSON values of the metadata; a float is the rational it denotes. *)
#[warnings="-register-all"]
Inductive meta :=
| MetaStr (s : string)
| MetaInt (n : Z)
| MetaPair (a b : Q)
| MetaObj (fields : list (string * meta)).

Inductive ApiCall :=
| CallUpdateMetadata (recording : Recording) (metadata : list (string * meta))
    (complete : bool)
| CallAddTrack (recording : Recording) (track : Track) (algorithm_id : Z)
| CallAddTrackTag (recording : Recording) (track : Track).

Record Api := {
  add_track_reply : nat -> result Z;
  add_track_tag_reply : nat -> result unit;
  update_metadata_reply : result unit
}.

Record Worker := {
  heap : Heap;
  calls : list ApiCall
}.

Definition is_add_track (c : ApiCall) : bool :=
  match c with CallAddTrack _ _ _ => true | _ => false end.

Definition is_add_track_tag (c : ApiCall) : bool :=
  match c with CallAddTrackTag _ _ => true | _ => false end.

Definition call (c : ApiCall) (s : Worker) : Worker :=
  {| heap := heap s; calls := calls s ++ [c] |}.

Definition store (r : ref) (t : Track) (s : Worker) : Worker :=
  {| heap := heap_set r t (heap s); calls := calls s |}.

(** [api.add_track(recording, track, algorithm_id)] *)
Definition api_add_track (api : Api) (recording : Recording) (track : ref)
  (algorithm_id : Z) (s : Worker) : result Z * Worker :=
  (add_track_reply api (List.length (filter is_add_track (calls s))),
   call (CallAddTrack recording (heap s track) algorithm_id) s).

(** [api.add_track_tag(recording, track)] *)
Definition api_add_track_tag (api : Api) (recording : Recording) (track : ref)
  (s : Worker) : result unit * Worker :=
  (add_track_tag_reply api (List.length (filter is_add_track_tag (calls s))),
   call (CallAddTrackTag recording (heap s track)) s).

Fixpoint upload_tracks (api : Api) (recording : Recording) (algorithm_id : Z)
  (tracks : list ref) (s : Worker) : result unit * Worker :=
  match tracks with
  | [] => (Ret tt, s)
  | track :: rest =>
      match api_add_track api recording track algorithm_id s with
      | (Raise e, s1) => (Raise e, s1)
      | (Ret id, s1) =>
          let s2 := store track
                      (dict_set String.eqb "id" (PyInt id) (heap s1 track)) s1 in
          if dict_mem String.eqb "tag" (heap s2 track) then
            match api_add_track_tag api recording track s2 with
            | (Raise e, s3) => (Raise e, s3)
            | (Ret _, s3) => upload_tracks api recording algorithm_id rest s3
            end
          else upload_tracks api recording algorithm_id rest s2
      end
  end.

(** What the worker reads from the CPTV file: the header fields and the
    number of frames the reader yields. *)
Record Reader := {
  timestamp_iso : string;
  latitude : Q;
  longitude : Q;
  preview_secs : option Z;
  frames : nat
}.

(** The part of [conf] the worker consults. *)
Record WorkerConf := { do_classify : bool }.

Definition FRAME_RATE : positive := 9.

(** [round(x)] of Python 3: to the nearest integer, a half to the even one. *)
Definition py_round (x : Q) : Z :=
  let f := Qfloor x in
  match Qcompare (x - inject_Z f) (1 # 2) with
  | Lt => f
  | Gt => f + 1
  | Eq => if Z.even f then f else f + 1
  end.

(** [x != 0] *)
Definition nonzero (x : Q) : bool := negb (Qeq_bool x 0).

(** [if reader.preview_secs:] *)
Definition truthy (n : option Z) : bool :=
  match n with Some n => negb (Z.eqb n 0) | None => false end.

(** The dictionary built inside the [with] block; [count / FRAME_RATE] is
    taken as the exact quotient. *)
Definition build_metadata (reader : Reader) : list (string * meta) :=
  let metadata := [] in
  let metadata :=
    dict_set String.eqb "recordingDateTime" (MetaStr (timestamp_iso reader))
      metadata in
  let metadata :=
    if nonzero (latitude reader) && nonzero (longitude reader)
    then dict_set String.eqb "location"
           (MetaPair (latitude reader) (longitude reader)) metadata
    else metadata in
  let metadata :=
    match preview_secs reader with
    | Some n =>
        if truthy (Some n)
        then dict_set String.eqb "additionalMetadata"
               (MetaObj [("previewSecs", MetaInt n)]) metadata
        else metadata
    | None => metadata
    end in
  let count := frames reader in
  dict_set String.eqb "duration"
    (MetaInt (py_round (Z.of_nat count # FRAME_RATE))) metadata.

(** [update_metadata(conf, recording, api)]; [file] is what opening and
    reading the recording gives, an exception or the reader's content. *)
Definition update_metadata (conf : WorkerConf) (recording : Recording)
  (api : Api) (file : result Reader) (s : Worker) : result unit * Worker :=
  match file with
  | Raise e => (Raise e, s)
  | Ret reader =>
      let metadata := build_metadata reader in
      let complete := negb (do_classify conf) in
      (update_metadata_reply api,
       call (CallUpdateMetadata recording metadata complete) s)
  end.

(** A tag call is sent with the track's id in the track. *)
Definition tag_call_ok (c : ApiCall) : Prop :=
  match c with
  | CallAddTrackTag _ t =>
      dict_mem String.eqb "id" t = true /\ dict_mem String.eqb "tag" t = true
  | _ => True
  end.


(** The tracks of a list that carry a ["tag"]. *)
Definition tagged (h : Heap) (tracks : list ref) : list ref :=
  filter (fun r => dict_mem String.eqb "tag" (h r)) tracks.


(** An API whose second [add_track] fails. *)
Definition api_flaky : Api :=
  {| add_track_reply :=
       fun n => match n with
                | 1%nat => Raise (RemoteError "500 Server Error")
                | _ => Ret (100 + Z.of_nat n)
                end;
     add_track_tag_reply := fun _ => Ret tt;
     update_metadata_reply := Ret tt |}.

(** Track 0 is tagged, the others are not. *)
Definition two_tracks : Heap :=
  fun r =>
    match r with
    | 0%nat => [("num_frames", PyInt 9); ("tag", PyStr "possum")]
    | _ => [("num_frames", PyInt 4)]
    end.

Definition worker0 (h : Heap) : Worker := {| heap := h; calls := [] |}.

Definition job7 : Recording := {| rec_id := 7; rec_type := "thermalRaw" |}.

(** ** More readings of the trace *)

(** The processors the main loop polled, in the order of the calls. *)
Definition poll_marks (evs : list Event) : list nat :=
  flat_map (fun e => match e with EvPoll i => [i] | _ => [] end) evs.

Definition is_sleep (e : Event) : bool :=
  match e with EvSleep _ => true | _ => false end.

Definition is_error_log (e : Event) : bool :=
  match e with EvLog ERROR _ => true | _ => false end.

(** What a tick itself can add to the trace. *)
Definition is_tick_event (e : Event) : bool :=
  is_log e || is_next_job e || is_schedule e.

(** What identifies a processor: the four arguments it was built with. *)
Definition stage (p : Processor) : string * string * Handler * Z :=
  (recording_type p, processing_state p, process_func p, num_workers p).

(** The stages of the configuration that have a worker, in the order of
    [main]. *)
Definition configured_stages (conf : Config) : list (string * string * Handler * Z) :=
  (if 1 <=? audio_convert_workers conf
   then [("audio", "toMp3", audio_convert_process, audio_convert_workers conf)]
   else []) ++
  (if 1 <=? audio_analysis_workers conf
   then [("audio", "analyse", audio_analysis_process, audio_analysis_workers conf)]
   else []) ++
  (if 1 <=? thermal_workers conf
   then [("thermalRaw", "getMetadata", thermal_process, thermal_workers conf)]
   else []).

(** The job source has a backlog for this recording type and state: every
    call hands out a job, and never the same id twice. *)
Definition hands_out_fresh (rt ps : string) (w : World) : Prop :=
  exists job : nat -> Recording,
    (forall k, job_source w k rt ps = ApiJob (job k)) /\
    (forall k k', rec_id (job k) = rec_id (job k') -> k = k').

(** No job finishes. *)
Definition none_done (f : handle -> FutState) : Prop :=
  forall h, f h = Pending.

(** The job source is down: every call raises. *)
Definition source_down (w : World) : Prop :=
  forall n rt ps, exists e, job_source w n rt ps = ApiRaise e.

(** ** Sample data *)

Definition no_jobs : nat -> string -> string -> ApiResult :=
  fun _ _ _ => ApiNone.

Definition all_pending : handle -> FutState := fun _ => Pending.

Definition world0 (f : handle -> FutState)
  (js : nat -> string -> string -> ApiResult) : World :=
  {| futures := f; job_source := js; api_calls := 0%nat;
     next_handle := 0%nat; trace := [] |}.

Definition thermal1 : Processor :=
  Processor_init "thermalRaw" "getMetadata" thermal_process 1.

(** A job source with a backlog: the [n]-th call hands out job [10 + n]. *)
Definition backlog : nat -> string -> string -> ApiResult :=
  fun n rt _ => ApiJob {| rec_id := 10 + Z.of_nat n; rec_type := rt |}.

(** A job source that is down. *)
Definition unreachable : nat -> string -> string -> ApiResult :=
  fun _ _ _ => ApiRaise (RemoteError "ConnectionError: job API unreachable").

(** Future 0 failed inside its handler, future 1 succeeded, the others run. *)
Definition one_failed_one_ok : handle -> FutState :=
  fun h =>
    match h with
    | 0%nat => Finished (Some {| err_str := "boom";
                                 err_traceback := Some "Traceback (most recent call last): ..." |})
    | 1%nat => Finished None
    | _ => Pending
    end.

(** Future 0 ended with an error object that has no [traceback] attribute. *)
Definition bare_failure : handle -> FutState :=
  fun h =>
    match h with
    | 0%nat => Finished (Some {| err_str := "Abnormal termination";
                                 err_traceback := None |})
    | 1%nat => Finished None
    | _ => Pending
    end.

Definition audio1 : Processor :=
  Processor_init "audio" "toMp3" audio_convert_process 1.

(** Four workers, jobs 5 and 6 in flight on futures 0 and 1. *)
Definition roomy : Processor :=
  with_in_progress [(5, 0%nat); (6, 1%nat)]
    (Processor_init "thermalRaw" "getMetadata" thermal_process 4).

(** A world in which futures 0 and 1 have been handed out already. *)
Definition world2 (f : handle -> FutState)
  (js : nat -> string -> string -> ApiResult) : World :=
  {| futures := f; job_source := js; api_calls := 0%nat;
     next_handle := 2%nat; trace := [] |}.

(** A job source that keeps handing out the same job. *)
Definition reissue (id : Z) : nat -> string -> string -> ApiResult :=
  fun _ rt _ => ApiJob {| rec_id := id; rec_type := rt |}.

(** Three workers and a backlog, after one tick: job 10 is in flight on
    future 0. *)
Definition tracking10 : Processor * World :=
  snd (poll (Processor_init "thermalRaw" "getMetadata" thermal_process 3,
             world0 all_pending backlog)).

(** A processor with one worker and job 7 in flight on future 0. *)
Definition busy1 : Processor := with_in_progress [(7, 0%nat)] thermal1.

(** Three workers, jobs 5, 6 and 7 in flight on futures 0, 1 and 2. *)
Definition busy3 : Processor :=
  with_in_progress [(5, 0%nat); (6, 1%nat); (7, 2%nat)]
    (Processor_init "thermalRaw" "getMetadata" thermal_process 3).

(** * Proofs *)

(** ** Dictionaries *)

Section DictFacts.
Context {K V : Type}.
Variable eqb : K -> K -> bool.
Hypothesis eqb_spec : forall a b, reflect (a = b) (eqb a b).

Local Abbreviation get := (@dict_get K V eqb).
Local Abbreviation remove := (@dict_remove K V eqb).
Local Abbreviation set := (@dict_set K V eqb).
Local Abbreviation mem := (@dict_mem K V eqb).

Lemma eqb_same k : eqb k k = true.
Proof using eqb_spec. destruct (eqb_spec k k); congruence. Qed.

Lemma eqb_diff a b : a <> b -> eqb a b = false.
Proof using eqb_spec. destruct (eqb_spec a b); congruence. Qed.

Lemma dict_get_In k v d : get k d = Some v -> In (k, v) d.
Proof using eqb_spec.
  induction d as [|[k' v'] rest IH]; simpl; [discriminate|].
  destruct (eqb_spec k k') as [->|]; intros H.
  - left. congruence.
  - right. auto.
Qed.

Lemma dict_get_None k d : get k d = None <-> ~ In k (map fst d).
Proof using eqb_spec.
  induction d as [|[k' v'] rest IH]; simpl.
  - tauto.
  - destruct (eqb_spec k k') as [->|Hne].
    + split; [discriminate | intros H; exfalso; apply H; now left].
    + rewrite IH. split.
      * intros H [E|I]; [congruence | tauto].
      * intros H I. apply H. now right.
Qed.

Lemma In_dict_get k v d : dict_wf d -> In (k, v) d -> get k d = Some v.
Proof using eqb_spec.
  unfold dict_wf.
  induction d as [|[k' v'] rest IH]; simpl; [tauto|].
  intros Hnd [E|I]; inversion Hnd as [|? ? Hnin Hnd']; subst.
  - inversion E; subst. now rewrite eqb_same.
  - destruct (eqb_spec k k') as [->|Hne].
    + exfalso. apply Hnin. change k' with (fst (k', v)). now apply in_map.
    + auto.
Qed.

Lemma dict_mem_In k d : mem k d = true <-> In k (map fst d).
Proof using eqb_spec.
  unfold dict_mem. destruct (get k d) eqn:E.
  - split; [intros _ | reflexivity].
    apply dict_get_In in E. change k with (fst (k, v)). now apply in_map.
  - apply dict_get_None in E. split; [discriminate | tauto].
Qed.

Lemma dict_get_remove_same k d : get k (remove k d) = None.
Proof using eqb_spec.
  apply dict_get_None. unfold dict_remove. intros H.
  apply in_map_iff in H as [[k' v'] [E H]]. simpl in E. subst k'.
  apply filter_In in H as [_ H]. simpl in H. now rewrite eqb_same in H.
Qed.

Lemma dict_get_remove_other k k' d :
  k <> k' -> get k (remove k' d) = get k d.
Proof using eqb_spec.
  intros Hne. induction d as [|[k0 v0] rest IH]; simpl; [reflexivity|].
  destruct (eqb_spec k' k0) as [->|Hne0]; simpl.
  - rewrite IH. now rewrite (eqb_diff _ _ Hne).
  - now rewrite IH.
Qed.

Lemma dict_remove_keys_incl k d x :
  In x (map fst (remove k d)) -> In x (map fst d).
Proof.
  unfold dict_remove. intros H.
  apply in_map_iff in H as [e [E H]]. apply filter_In in H as [H _].
  subst x. now apply in_map.
Qed.

Lemma dict_remove_wf k d : dict_wf d -> dict_wf (remove k d).
Proof.
  unfold dict_wf. induction d as [|[k0 v0] rest IH]; simpl; [auto|].
  intros Hnd. inversion Hnd as [|? ? Hnin Hnd']; subst.
  destruct (eqb k k0); simpl; auto.
  constructor; auto. intros H. apply Hnin. eapply dict_remove_keys_incl, H.
Qed.

Lemma dict_remove_length k d :
  (List.length (remove k d) <= List.length d)%nat.
Proof. apply filter_length_le. Qed.

Lemma dict_remove_absent k d : mem k d = false -> remove k d = d.
Proof using eqb_spec.
  intros Hm. unfold dict_remove.
  induction d as [|[k0 v0] rest IH]; simpl; [reflexivity|].
  unfold dict_mem in Hm. simpl in Hm.
  destruct (eqb k k0); simpl; [discriminate|].
  f_equal. apply IH. exact Hm.
Qed.

Lemma dict_remove_twice k d : remove k (remove k d) = remove k d.
Proof using eqb_spec.
  apply dict_remove_absent. unfold dict_mem.
  now rewrite dict_get_remove_same.
Qed.

Lemma dict_del_present k d : mem k d = true -> dict_del eqb k d = Some (remove k d).
Proof. unfold dict_del. now intros ->. Qed.

Lemma dict_get_set_same k v d : get k (set k v d) = Some v.
Proof using eqb_spec.
  induction d as [|[k0 v0] rest IH]; simpl.
  - now rewrite eqb_same.
  - destruct (eqb_spec k k0) as [->|Hne]; simpl.
    + now rewrite eqb_same.
    + now rewrite (eqb_diff _ _ Hne).
Qed.

Lemma dict_get_set_other k k' v d :
  k <> k' -> get k (set k' v d) = get k d.
Proof using eqb_spec.
  intros Hne. induction d as [|[k0 v0] rest IH]; simpl.
  - now rewrite (eqb_diff _ _ Hne).
  - destruct (eqb_spec k' k0) as [->|Hne0]; simpl.
    + now rewrite (eqb_diff _ _ Hne).
    + now rewrite IH.
Qed.

Lemma dict_set_keys k v d x :
  In x (map fst (set k v d)) <-> x = k \/ In x (map fst d).
Proof using eqb_spec.
  induction d as [|[k0 v0] rest IH]; simpl.
  - intuition.
  - destruct (eqb_spec k k0) as [->|Hne]; simpl.
    + intuition.
    + rewrite IH. intuition.
Qed.

Lemma dict_set_wf k v d : dict_wf d -> dict_wf (set k v d).
Proof using eqb_spec.
  unfold dict_wf. induction d as [|[k0 v0] rest IH]; simpl.
  - intros _. constructor; [simpl; tauto | constructor].
  - intros Hnd. inversion Hnd as [|? ? Hnin Hnd']; subst.
    destruct (eqb_spec k k0) as [->|Hne]; simpl.
    + now constructor.
    + constructor; auto. rewrite dict_set_keys. intros [E|I]; congruence.
Qed.

Lemma dict_set_length k v d :
  (List.length (set k v d) <= S (List.length d))%nat.
Proof.
  induction d as [|[k0 v0] rest IH]; simpl; [lia|].
  destruct (eqb k k0); simpl; lia.
Qed.

End DictFacts.

Lemma Zeqb_spec : forall a b : Z, reflect (a = b) (Z.eqb a b).
Proof. intros a b. apply Z.eqb_spec. Qed.

Lemma Seqb_spec : forall a b : string, reflect (a = b) (String.eqb a b).
Proof. intros a b. apply String.eqb_spec. Qed.

(** ** Worlds and traces *)

Lemma add_events_nil w : add_events [] w = w.
Proof. destruct w. unfold add_events. simpl. now rewrite app_nil_r. Qed.

Lemma add_events_app evs1 evs2 w :
  add_events evs2 (add_events evs1 w) = add_events (evs1 ++ evs2) w.
Proof. unfold add_events. simpl. now rewrite app_assoc. Qed.

Lemma emitted_app w w' evs : trace w' = trace w ++ evs -> emitted w w' = evs.
Proof.
  intros E. unfold emitted. rewrite E.
  rewrite skipn_app, skipn_all, Nat.sub_diag. reflexivity.
Qed.

Lemma emitted_add_events w evs : emitted w (add_events evs w) = evs.
Proof. now apply emitted_app. Qed.

Lemma filter_filter {A} (f g : A -> bool) l :
  filter f (filter g l) = filter (fun x => g x && f x) l.
Proof.
  induction l as [|x l IH]; simpl; [reflexivity|].
  destruct (g x); simpl; [destruct (f x)|]; now rewrite IH.
Qed.

(** ** The reap loop *)

Lemma with_in_progress_same p : with_in_progress (in_progress p) p = p.
Proof. now destruct p. Qed.

(** One turn of the loop, case by case. *)
Lemma reap_one_eq recording_id future p w :
  reap_one (recording_id, future) (p, w) =
  match futures w future with
  | Pending => (Ret tt, (p, w))
  | Finished exc =>
      match dict_del Z.eqb recording_id (in_progress p) with
      | None => (Raise (KeyError (str_of_int recording_id)), (p, w))
      | Some d =>
          match exc with
          | None => (Ret tt, (with_in_progress d p, w))
          | Some err =>
              match err_traceback err with
              | None => (Raise (AttributeError "traceback"), (with_in_progress d p, w))
              | Some tb =>
                  (Ret tt,
                   (with_in_progress d p,
                    add_events
                      [EvLog ERROR
                         (failed_msg (recording_type p) (processing_state p)
                            recording_id (err_str err) tb)] w))
              end
          end
      end
  end.
Proof.
  unfold reap_one, bind, future_done, future_exception, del_in_progress,
    getattr_traceback, self, logger_error, emit, ret, raise, add_event; simpl.
  destruct (futures w future) as [|exc] eqn:Hf; simpl; [reflexivity|].
  destruct (dict_del Z.eqb recording_id (in_progress p)); simpl; [|reflexivity].
  rewrite Hf. destruct exc as [err|]; [|reflexivity].
  destruct (err_traceback err); reflexivity.
Qed.

Lemma for_each_cons {A} (x : A) rest body s :
  for_each (x :: rest) body s =
  match body x s with
  | (Ret _, s') => for_each rest body s'
  | (Raise e, s') => (Raise e, s')
  end.
Proof. reflexivity. Qed.

Lemma examined_cons w item rest :
  examined w (item :: rest)
  = item :: (if report_raises w item then [] else examined w rest).
Proof. reflexivity. Qed.

Lemma reaped_cons w item rest :
  reaped w (item :: rest)
  = (if item_done w item then [item] else [])
      ++ (if report_raises w item then [] else reaped w rest).
Proof.
  unfold reaped. simpl.
  destruct (item_done w item), (report_raises w item); reflexivity.
Qed.

Lemma failure_logs_cons rt ps w item rest :
  failure_logs rt ps w (item :: rest)
  = failure_log rt ps w item ++ failure_logs rt ps w rest.
Proof. reflexivity. Qed.

(** The loop reads the world through [futures] only. *)
Lemma report_raises_futures w w' item :
  futures w' = futures w -> report_raises w' item = report_raises w item.
Proof. unfold report_raises. now intros ->. Qed.

Lemma examined_futures w w' items :
  futures w' = futures w -> examined w' items = examined w items.
Proof.
  intros E. induction items as [|item rest IH]; simpl; [reflexivity|].
  now rewrite IH, (report_raises_futures w w').
Qed.

Lemma reaped_futures w w' items :
  futures w' = futures w -> reaped w' items = reaped w items.
Proof.
  intros E. unfold reaped. rewrite (examined_futures w w') by assumption.
  apply filter_ext. intros item. unfold item_done. now rewrite E.
Qed.

Lemma failure_logs_futures rt ps w w' items :
  futures w' = futures w -> failure_logs rt ps w' items = failure_logs rt ps w items.
Proof.
  intros E. unfold failure_logs. apply flat_map_ext. intros item.
  unfold failure_log. now rewrite E.
Qed.

Lemma existsb_report_raises_futures w w' items :
  futures w' = futures w ->
  existsb (report_raises w') items = existsb (report_raises w) items.
Proof.
  intros E. induction items as [|item rest IH]; simpl; [reflexivity|].
  now rewrite IH, (report_raises_futures w w').
Qed.

Lemma filter_has_key_cons k h l (d : list (Z * handle)) :
  filter (fun x => negb (Z.eqb k (fst x)) && negb (has_key l x)) d
  = filter (fun e => negb (has_key ((k, h) :: l) e)) d.
Proof.
  apply filter_ext. intros e. unfold has_key. simpl.
  now rewrite negb_orb.
Qed.

(** The loop in closed form, for items that are keys of the dictionary. *)
Lemma reap_loop_spec items : forall p w,
  NoDup (map fst items) ->
  (forall item, In item items -> dict_mem Z.eqb (fst item) (in_progress p) = true) ->
  for_each items reap_one (p, w) =
  ((if existsb (report_raises w) items
    then Raise (AttributeError "traceback") else Ret tt),
   (with_in_progress
      (filter (fun e => negb (has_key (reaped w items) e)) (in_progress p)) p,
    add_events
      (failure_logs (recording_type p) (processing_state p) w (examined w items))
      w)).
Proof.
  induction items as [|[k h] rest IH]; intros p w Hnd Hin.
  - simpl. unfold ret. rewrite add_events_nil.
    replace (filter _ (in_progress p)) with (in_progress p).
    + now rewrite with_in_progress_same.
    + symmetry. apply forallb_filter_id. apply forallb_forall. reflexivity.
  - inversion Hnd as [|? ? Hk Hnd']; subst.
    assert (Hin' : forall item, In item rest ->
              dict_mem Z.eqb (fst item)
                (in_progress (with_in_progress (dict_remove Z.eqb k (in_progress p)) p)) = true).
    { intros item Hi. simpl. unfold dict_mem.
      rewrite (dict_get_remove_other Z.eqb Zeqb_spec).
      - apply (Hin item). now right.
      - intros E. apply Hk. rewrite <- E. now apply in_map. }
    rewrite for_each_cons, reap_one_eq, examined_cons, reaped_cons,
      failure_logs_cons.
    change (existsb (report_raises w) ((k, h) :: rest))
      with (report_raises w (k, h) || existsb (report_raises w) rest).
    assert (Hd : item_done w (k, h) = is_done (futures w h)) by reflexivity.
    assert (Hrr : report_raises w (k, h) =
              match futures w h with
              | Finished (Some err) =>
                  match err_traceback err with None => true | Some _ => false end
              | _ => false
              end) by reflexivity.
    assert (Hfl : forall rt ps, failure_log rt ps w (k, h) =
              match futures w h with
              | Finished (Some err) =>
                  match err_traceback err with
                  | Some tb => [EvLog ERROR (failed_msg rt ps k (err_str err) tb)]
                  | None => []
                  end
              | _ => []
              end) by reflexivity.
    rewrite Hd, Hrr, Hfl. clear Hd Hrr Hfl.
    destruct (futures w h) as [|exc] eqn:Hf.
    + (* not done: the entry stays *)
      cbn [is_done orb app]. apply IH; auto.
      intros item Hi. apply Hin. now right.
    + rewrite (dict_del_present Z.eqb) by (apply (Hin (k, h)); now left).
      destruct exc as [err|]; [destruct (err_traceback err) as [tb|] eqn:Htb|];
        cbn [is_done orb app].
      * rewrite IH; auto. cbn [recording_type processing_state with_in_progress in_progress].
        rewrite add_events_app.
        rewrite (existsb_report_raises_futures w), (reaped_futures w),
          (failure_logs_futures _ _ w), (examined_futures w) by reflexivity.
        unfold dict_remove. rewrite filter_filter, (filter_has_key_cons k h).
        reflexivity.
      * cbn [failure_logs flat_map app]. rewrite add_events_nil. unfold dict_remove.
        f_equal. f_equal. f_equal. apply filter_ext. intros e.
        unfold has_key. cbn [existsb fst]. now rewrite orb_false_r.
      * rewrite IH; auto. cbn [recording_type processing_state with_in_progress in_progress].
        unfold dict_remove. rewrite filter_filter, (filter_has_key_cons k h).
        reflexivity.
Qed.

Lemma reap_completed_eq p w :
  reap_completed (p, w) = for_each (in_progress p) reap_one (p, w).
Proof. reflexivity. Qed.

(** What a reap leaves alone, whatever the dictionary looks like. *)
Lemma reap_loop_frame items : forall p w r p' w',
  for_each items reap_one (p, w) = (r, (p', w')) ->
  recording_type p' = recording_type p /\
  processing_state p' = processing_state p /\
  process_func p' = process_func p /\
  num_workers p' = num_workers p /\
  (List.length (in_progress p') <= List.length (in_progress p))%nat /\
  exists evs, w' = add_events evs w /\ forallb is_log evs = true.
Proof.
  induction items as [|[k h] rest IH]; intros p w r p' w' E.
  - simpl in E. unfold ret in E. inversion E; subst.
    repeat split; auto. exists []. now rewrite add_events_nil.
  - rewrite for_each_cons, reap_one_eq in E.
    assert (Hstop : forall e, (Raise e, (p, w)) = (r, (p', w')) ->
      recording_type p' = recording_type p /\
      processing_state p' = processing_state p /\
      process_func p' = process_func p /\
      num_workers p' = num_workers p /\
      (List.length (in_progress p') <= List.length (in_progress p))%nat /\
      exists evs, w' = add_events evs w /\ forallb is_log evs = true).
    { intros e E'. inversion E'; subst. repeat split; auto.
      exists []. now rewrite add_events_nil. }
    destruct (futures w h) as [|exc]; [now apply IH in E|].
    unfold dict_del in E.
    destruct (dict_mem Z.eqb k (in_progress p)); [|now apply (Hstop _ E)].
    pose proof (dict_remove_length Z.eqb k (in_progress p)) as Hlen.
    destruct exc as [err|]; [destruct (err_traceback err) as [tb|]|].
    + apply IH in E. simpl in E.
      destruct E as (E1 & E2 & E3 & E4 & E5 & evs & E6 & E7).
      repeat split; auto; [lia|].
      eexists. rewrite E6, add_events_app. split; [reflexivity|].
      simpl. exact E7.
    + inversion E; subst. simpl. repeat split; auto.
      exists []. now rewrite add_events_nil.
    + apply IH in E. simpl in E.
      destruct E as (E1 & E2 & E3 & E4 & E5 & E6).
      repeat split; auto. lia.
Qed.

(** [poll] after its reap, case by case. *)
Lemma poll_eq p w :
  poll (p, w) =
  match reap_completed (p, w) with
  | (Raise e, s) => (Raise e, s)
  | (Ret _, (p1, w1)) =>
      if dict_len (in_progress p1) >=? num_workers p1 then (Ret tt, (p1, w1))
      else
        let w2 :=
          add_event (EvNextJob (recording_type p1) (processing_state p1))
            (count_call w1) in
        match job_source w1 (api_calls w1) (recording_type p1) (processing_state p1) with
        | ApiNone => (Ret tt, (p1, w2))
        | ApiRaise e => (Raise e, (p1, w2))
        | ApiJob r =>
            (Ret tt,
             (with_in_progress
                (dict_set Z.eqb (rec_id r) (next_handle w1) (in_progress p1)) p1,
              add_event (EvSchedule (process_func p1) r (next_handle w1))
                (fresh_handle
                   (add_event
                      (EvLog DEBUG (scheduling_msg r (processing_state p1))) w2))))
        end
  end.
Proof.
  unfold poll. unfold bind at 1.
  destruct (reap_completed (p, w)) as [[u|e] [p1 w1]]; [|reflexivity].
  unfold bind, self, api_next_job, logger_debug, emit, pool_schedule,
    set_in_progress, ret. cbn [fst snd].
  destruct (dict_len (in_progress p1) >=? num_workers p1); [reflexivity|].
  cbn [fst snd].
  destruct (job_source w1 (api_calls w1) (recording_type p1) (processing_state p1));
    reflexivity.
Qed.

Lemma count_next_job_app evs1 evs2 :
  count_next_job (evs1 ++ evs2) = (count_next_job evs1 + count_next_job evs2)%nat.
Proof. unfold count_next_job. now rewrite filter_app, length_app. Qed.

Lemma logs_no_next_job evs : forallb is_log evs = true -> count_next_job evs = 0%nat.
Proof.
  unfold count_next_job. induction evs as [|e evs IH]; simpl; [reflexivity|].
  intros H. apply andb_prop in H as [He H]. destruct e; try discriminate.
  simpl. auto.
Qed.

Lemma logs_no_schedule evs : forallb is_log evs = true -> filter is_schedule evs = [].
Proof.
  induction evs as [|e evs IH]; simpl; [reflexivity|].
  intros H. apply andb_prop in H as [He H]. destruct e; try discriminate.
  simpl. auto.
Qed.

(** A tick keeps the bound on the jobs in flight. *)
Lemma poll_keeps_bound p w :
  dict_len (in_progress p) <= num_workers p ->
  let p' := fst (snd (poll (p, w))) in
  num_workers p' = num_workers p /\ dict_len (in_progress p') <= num_workers p'.
Proof.
  intros Hb. rewrite poll_eq.
  destruct (reap_completed (p, w)) as [[u|e] [p1 w1]] eqn:Er;
    rewrite reap_completed_eq in Er; apply reap_loop_frame in Er;
    destruct Er as (_ & _ & _ & Hn & Hl & _); unfold dict_len in *.
  - destruct (Z.of_nat (List.length (in_progress p1)) >=? num_workers p1) eqn:Hc.
    + simpl. split; [auto | lia].
    + rewrite Z.geb_leb in Hc. apply Z.leb_gt in Hc.
      destruct (job_source w1 (api_calls w1) (recording_type p1) (processing_state p1));
        simpl; split; auto; try lia.
      pose proof (dict_set_length Z.eqb (rec_id r) (next_handle w1) (in_progress p1)).
      lia.
  - simpl. split; [auto | lia].
Qed.

Lemma tick_reachable_bound p :
  tick_reachable p -> dict_len (in_progress p) <= num_workers p.
Proof.
  induction 1 as [rt ps f n p Hadd | p w Hr IH].
  - unfold add in Hadd. destruct (n <? 1) eqn:Hn; [discriminate|].
    apply Z.ltb_ge in Hn. inversion Hadd; subst. simpl. unfold dict_len. simpl. lia.
  - now apply poll_keeps_bound.
Qed.

Lemma poll_adds_at_most_one p w :
  let pr := fst (snd (reap_completed (p, w))) in
  let p' := fst (snd (poll (p, w))) in
  dict_len (in_progress p') <= dict_len (in_progress pr) + 1 /\
  (dict_len (in_progress pr) < dict_len (in_progress p') ->
   dict_len (in_progress pr) < num_workers pr).
Proof.
  rewrite poll_eq.
  destruct (reap_completed (p, w)) as [[u|e] [p1 w1]]; simpl; [|lia].
  destruct (dict_len (in_progress p1) >=? num_workers p1) eqn:Hc; simpl; [lia|].
  rewrite Z.geb_leb in Hc. apply Z.leb_gt in Hc.
  destruct (job_source w1 (api_calls w1) (recording_type p1) (processing_state p1));
    simpl; try lia.
  pose proof (dict_set_length Z.eqb (rec_id r) (next_handle w1) (in_progress p1)).
  unfold dict_len in *. lia.
Qed.

(** ** The pass of the main loop *)

Lemma polled_app evs1 evs2 j :
  polled (evs1 ++ evs2) j = polled evs1 j || polled evs2 j.
Proof. unfold polled. apply existsb_app. Qed.

Lemma logs_not_polled evs j : forallb is_log evs = true -> polled evs j = false.
Proof.
  unfold polled. induction evs as [|e evs IH]; simpl; [reflexivity|].
  intros H. apply andb_prop in H as [He H]. destruct e; try discriminate.
  simpl. auto.
Qed.

(** A tick adds to the trace, and never a mark of the main loop. *)
Lemma poll_trace p w :
  exists evs,
    trace (snd (snd (poll (p, w)))) = trace w ++ evs /\
    forall j, polled evs j = false.
Proof.
  rewrite poll_eq.
  destruct (reap_completed (p, w)) as [[u|e] [p1 w1]] eqn:Er;
    rewrite reap_completed_eq in Er; apply reap_loop_frame in Er;
    destruct Er as (_ & _ & _ & _ & _ & evs & -> & Hlogs).
  - destruct (dict_len (in_progress p1) >=? num_workers p1).
    + exists evs. split; [reflexivity | intros; now apply logs_not_polled].
    + destruct (job_source (add_events evs w) (api_calls (add_events evs w))
                  (recording_type p1) (processing_state p1)); simpl.
      all: eexists; split; [rewrite <- ?app_assoc; reflexivity|].
      all: intros j; rewrite polled_app, (logs_not_polled evs j Hlogs); reflexivity.
  - exists evs. split; [reflexivity | intros; now apply logs_not_polled].
Qed.

Lemma poll_all_trace ps : forall i w r ps' w',
  poll_all i ps w = (r, ps', w') ->
  exists evs,
    trace w' = trace w ++ evs /\
    forall j, (i + List.length ps <= j)%nat -> polled evs j = false.
Proof.
  induction ps as [|p rest IH]; intros i w r ps' w' E; simpl in E.
  - inversion E; subst. exists []. split; [now rewrite app_nil_r | reflexivity].
  - destruct (poll_trace p (add_event (EvPoll i) w)) as (evs & Ht & Hp).
    destruct (poll (p, add_event (EvPoll i) w)) as [[u|e] [p1 w1]]; simpl in Ht.
    + destruct (poll_all (S i) rest w1) as [[r2 rest2] w2] eqn:E2.
      inversion E; subst. apply IH in E2 as (evs2 & Ht2 & Hp2).
      exists ([EvPoll i] ++ evs ++ evs2). split.
      * rewrite Ht2, Ht. now rewrite <- !app_assoc.
      * intros j Hj. simpl in Hj. rewrite !polled_app, Hp, Hp2 by lia.
        simpl. rewrite ?orb_false_r. apply Nat.eqb_neq. lia.
    + inversion E; subst. exists ([EvPoll i] ++ evs). split.
      * rewrite Ht. now rewrite <- !app_assoc.
      * intros j Hj. simpl in Hj. rewrite polled_app, Hp.
        simpl. rewrite ?orb_false_r. apply Nat.eqb_neq. lia.
Qed.

(** Processors ticked without an error, then the rest of the list. *)
Lemma poll_all_app ps1 : forall i w ps1' w1 ps2,
  poll_all i ps1 w = (Ret tt, ps1', w1) ->
  poll_all i (ps1 ++ ps2) w =
  (let '(r, ps2', w2) := poll_all (i + List.length ps1) ps2 w1 in
   (r, ps1' ++ ps2', w2)).
Proof.
  induction ps1 as [|p rest IH]; intros i w ps1' w1 ps2 E; simpl in E.
  - inversion E; subst. simpl. rewrite Nat.add_0_r.
    now destruct (poll_all i ps2 w1) as [[r ps2'] w2].
  - simpl. destruct (poll (p, add_event (EvPoll i) w)) as [[u|e] [p1 w0]].
    + destruct (poll_all (S i) rest w0) as [[r2 rest2] w2] eqn:E2.
      inversion E; subst. rewrite (IH _ _ _ _ ps2 E2).
      replace (i + S (List.length rest))%nat with (S i + List.length rest)%nat by lia.
      now destruct (poll_all (S i + List.length rest) ps2 w1) as [[r ps2'] w2].
    + inversion E.
Qed.

(** ** Reaps that run to the end *)

Lemma examined_no_raise w items :
  existsb (report_raises w) items = false -> examined w items = items.
Proof.
  induction items as [|item rest IH]; simpl; [reflexivity|].
  intros H. apply orb_false_elim in H as [H1 H2]. rewrite H1. now rewrite IH.
Qed.

Lemma examined_incl w items item : In item (examined w items) -> In item items.
Proof.
  induction items as [|x rest IH]; simpl; [tauto|].
  intros [E|H]; [now left|]. right.
  destruct (report_raises w x); [contradiction | auto].
Qed.

Lemma keys_inj (l : list (Z * handle)) x y :
  dict_wf l -> In x l -> In y l -> fst x = fst y -> x = y.
Proof.
  intros Hwf Hx Hy E. destruct x as [k v1], y as [k' v2]. simpl in E. subst k'.
  apply (In_dict_get Z.eqb Zeqb_spec) in Hx, Hy; try assumption.
  congruence.
Qed.

Lemma has_key_spec l item :
  has_key l item = true <-> exists x, In x l /\ fst x = fst item.
Proof.
  unfold has_key. rewrite existsb_exists. split; intros (x & Hx & E); exists x;
    (split; [assumption|]); now apply Z.eqb_eq.
Qed.

Lemma has_key_done w items item :
  dict_wf items -> In item items ->
  has_key (filter (item_done w) items) item = item_done w item.
Proof.
  intros Hwf Hin. destruct (item_done w item) eqn:Hd.
  - apply has_key_spec. exists item. split; [|reflexivity].
    apply filter_In. now split.
  - destruct (has_key (filter (item_done w) items) item) eqn:Hk; [|reflexivity].
    apply has_key_spec in Hk as (x & Hx & E). apply filter_In in Hx as [Hx Hdx].
    rewrite (keys_inj items x item Hwf Hx Hin E) in Hdx. congruence.
Qed.

Lemma dict_wf_filter (f : Z * handle -> bool) d : dict_wf d -> dict_wf (filter f d).
Proof.
  unfold dict_wf. induction d as [|x d IH]; simpl; [auto|].
  intros Hnd. inversion Hnd as [|? ? Hnin Hnd']; subst.
  destruct (f x); simpl; auto. constructor; auto.
  intros H. apply Hnin. apply in_map_iff in H as (y & E & Hy).
  apply filter_In in Hy as [Hy _]. rewrite <- E. now apply in_map.
Qed.

Lemma wf_items_present (d : list (Z * handle)) item :
  In item d -> dict_mem Z.eqb (fst item) d = true.
Proof.
  intros H. apply (dict_mem_In Z.eqb Zeqb_spec). now apply in_map.
Qed.

(** The reap of a well-formed dictionary, in closed form. *)
Lemma reap_completed_spec p w :
  dict_wf (in_progress p) ->
  reap_completed (p, w) =
  ((if existsb (report_raises w) (in_progress p)
    then Raise (AttributeError "traceback") else Ret tt),
   (with_in_progress
      (filter (fun e => negb (has_key (reaped w (in_progress p)) e))
         (in_progress p)) p,
    add_events
      (failure_logs (recording_type p) (processing_state p) w
         (examined w (in_progress p)))
      w)).
Proof.
  intros Hwf. rewrite reap_completed_eq.
  apply reap_loop_spec; [exact Hwf|]. intros item. apply wf_items_present.
Qed.

(** When no failure report raises, the reap ends normally, drops exactly
    the finished entries and writes one line per failure. *)
Lemma reap_completed_all_reported p w :
  dict_wf (in_progress p) ->
  existsb (report_raises w) (in_progress p) = false ->
  reap_completed (p, w) =
  (Ret tt,
   (with_in_progress
      (filter (fun item => negb (item_done w item)) (in_progress p)) p,
    add_events
      (failure_logs (recording_type p) (processing_state p) w (in_progress p))
      w)).
Proof.
  intros Hwf Hno. rewrite (reap_completed_spec p w Hwf), Hno.
  unfold reaped. rewrite (examined_no_raise w _ Hno).
  f_equal. f_equal. f_equal. apply filter_ext_in.
  intros item Hin. now rewrite has_key_done.
Qed.

Lemma reap_result_ret p w :
  dict_wf (in_progress p) ->
  fst (reap_completed (p, w)) = Ret tt ->
  existsb (report_raises w) (in_progress p) = false.
Proof.
  intros Hwf. rewrite (reap_completed_spec p w Hwf). simpl.
  now destruct (existsb (report_raises w) (in_progress p)).
Qed.

(** ** Entries across ticks *)

Lemma dict_get_filter_keep (f : Z * handle -> bool) d k v :
  dict_wf d -> dict_get Z.eqb k d = Some v -> f (k, v) = true ->
  dict_get Z.eqb k (filter f d) = Some v.
Proof.
  intros Hwf Hg Hf. apply (In_dict_get Z.eqb Zeqb_spec).
  - now apply dict_wf_filter.
  - apply filter_In. split; [|exact Hf]. now apply (dict_get_In Z.eqb Zeqb_spec).
Qed.

Lemma dict_get_filter_None (f : Z * handle -> bool) d k :
  dict_get Z.eqb k d = None -> dict_get Z.eqb k (filter f d) = None.
Proof.
  rewrite !(dict_get_None Z.eqb Zeqb_spec). intros Hn Hk. apply Hn.
  apply in_map_iff in Hk as (x & E & Hx). apply filter_In in Hx as [Hx _].
  rewrite <- E. now apply in_map.
Qed.

(** The dictionary after a tick: what the reap left, plus at most the job
    the source handed out. *)
Lemma poll_in_progress p w :
  dict_wf (in_progress p) ->
  let d1 := filter (fun e => negb (has_key (reaped w (in_progress p)) e))
              (in_progress p) in
  let p' := fst (snd (poll (p, w))) in
  in_progress p' = d1 \/
  exists r,
    job_source w (api_calls w) (recording_type p) (processing_state p) = ApiJob r /\
    in_progress p' = dict_set Z.eqb (rec_id r) (next_handle w) d1.
Proof.
  intros Hwf d1 p'. subst p'.
  rewrite poll_eq, (reap_completed_spec p w Hwf). fold d1.
  destruct (existsb (report_raises w) (in_progress p)); [now left|].
  cbn [in_progress with_in_progress num_workers recording_type processing_state
       job_source api_calls next_handle add_events].
  destruct (dict_len d1 >=? num_workers p); [now left|].
  destruct (job_source w (api_calls w) (recording_type p) (processing_state p))
    as [|r|e] eqn:Ej; [now left | | now left].
  right. exists r. split; reflexivity.
Qed.

Lemma poll_job_source p w :
  job_source (snd (snd (poll (p, w)))) = job_source w.
Proof.
  rewrite poll_eq.
  destruct (reap_completed (p, w)) as [[u|e] [p1 w1]] eqn:Er;
    rewrite reap_completed_eq in Er; apply reap_loop_frame in Er;
    destruct Er as (_ & _ & _ & _ & _ & evs & -> & _); [|reflexivity].
  destruct (dict_len (in_progress p1) >=? num_workers p1); [reflexivity|].
  now destruct (job_source (add_events evs w) (api_calls (add_events evs w))
                  (recording_type p1) (processing_state p1)).
Qed.

Lemma poll_wf p w :
  dict_wf (in_progress p) -> dict_wf (in_progress (fst (snd (poll (p, w))))).
Proof.
  intros Hwf. destruct (poll_in_progress p w Hwf) as [-> | (r & _ & ->)].
  - now apply dict_wf_filter.
  - apply (dict_set_wf Z.eqb Zeqb_spec). now apply dict_wf_filter.
Qed.

(** An entry whose future is still running survives the tick. *)
Lemma poll_keeps_pending p w id h :
  dict_wf (in_progress p) ->
  dict_get Z.eqb id (in_progress p) = Some h ->
  futures w h = Pending ->
  hands_out_no_more id w ->
  dict_get Z.eqb id (in_progress (fst (snd (poll (p, w))))) = Some h.
Proof.
  intros Hwf Hg Hp Hsrc.
  assert (Hkeep : dict_get Z.eqb id
            (filter (fun e => negb (has_key (reaped w (in_progress p)) e))
               (in_progress p)) = Some h).
  { apply dict_get_filter_keep; auto.
    destruct (has_key (reaped w (in_progress p)) (id, h)) eqn:Hk; [|reflexivity].
    apply has_key_spec in Hk as (x & Hx & E). unfold reaped in Hx.
    apply filter_In in Hx as [Hx Hd]. apply examined_incl in Hx.
    apply (dict_get_In Z.eqb Zeqb_spec) in Hg.
    rewrite (keys_inj (in_progress p) x (id, h) Hwf Hx Hg E) in Hd.
    unfold item_done in Hd. simpl in Hd. rewrite Hp in Hd. discriminate. }
  destruct (poll_in_progress p w Hwf) as [-> | (r & Ej & ->)]; [exact Hkeep|].
  rewrite (dict_get_set_other Z.eqb Zeqb_spec); [exact Hkeep|].
  intros E. apply (Hsrc _ _ _ _ (le_n _) Ej). now symmetry.
Qed.

(** An id that is not tracked and not handed out stays untracked. *)
Lemma poll_keeps_absent p w id :
  dict_wf (in_progress p) ->
  dict_get Z.eqb id (in_progress p) = None ->
  hands_out_no_more id w ->
  dict_get Z.eqb id (in_progress (fst (snd (poll (p, w))))) = None.
Proof.
  intros Hwf Hg Hsrc.
  destruct (poll_in_progress p w Hwf) as [-> | (r & Ej & ->)].
  - now apply dict_get_filter_None.
  - rewrite (dict_get_set_other Z.eqb Zeqb_spec); [now apply dict_get_filter_None|].
    intros E. apply (Hsrc _ _ _ _ (le_n _) Ej). now symmetry.
Qed.

(** The reap removes the entry it finds done. *)
Lemma reap_removes_done p w id h :
  dict_wf (in_progress p) ->
  In (id, h) (examined w (in_progress p)) ->
  is_done (futures w h) = true ->
  dict_get Z.eqb id (in_progress (fst (snd (reap_completed (p, w))))) = None.
Proof.
  intros Hwf Hex Hd. rewrite (reap_completed_spec p w Hwf). simpl.
  apply (dict_get_None Z.eqb Zeqb_spec). intros Hk.
  apply in_map_iff in Hk as ([id' h'] & E & Hf). simpl in E. subst id'.
  apply filter_In in Hf as [_ Hf].
  assert (Hk : has_key (reaped w (in_progress p)) (id, h') = true).
  { apply has_key_spec. exists (id, h). split; [|reflexivity].
    unfold reaped. apply filter_In. now split. }
  rewrite Hk in Hf. discriminate.
Qed.

Lemma hands_out_no_more_ext id w w' :
  job_source w' = job_source w ->
  (api_calls w <= api_calls w')%nat ->
  hands_out_no_more id w -> hands_out_no_more id w'.
Proof.
  unfold hands_out_no_more. intros E Hle H n rt ps r Hn. rewrite E.
  apply H. lia.
Qed.

Lemma poll_api_calls_le p w :
  (api_calls w <= api_calls (snd (snd (poll (p, w)))))%nat.
Proof.
  rewrite poll_eq.
  destruct (reap_completed (p, w)) as [[u|e] [p1 w1]] eqn:Er;
    rewrite reap_completed_eq in Er; apply reap_loop_frame in Er;
    destruct Er as (_ & _ & _ & _ & _ & evs & -> & _); [|simpl; lia].
  destruct (dict_len (in_progress p1) >=? num_workers p1); [simpl; lia|].
  destruct (job_source (add_events evs w) (api_calls (add_events evs w))
              (recording_type p1) (processing_state p1)); simpl; lia.
Qed.

Lemma run_ticks_keeps snaps : forall p w id h,
  dict_wf (in_progress p) ->
  dict_get Z.eqb id (in_progress p) = Some h ->
  (forall f, In f snaps -> f h = Pending) ->
  hands_out_no_more id w ->
  dict_wf (in_progress (fst (run_ticks snaps (p, w)))) /\
  dict_get Z.eqb id (in_progress (fst (run_ticks snaps (p, w)))) = Some h /\
  job_source (snd (run_ticks snaps (p, w))) = job_source w /\
  (api_calls w <= api_calls (snd (run_ticks snaps (p, w))))%nat.
Proof.
  induction snaps as [|f rest IH]; intros p w id h Hwf Hg Hp Hsrc.
  - simpl. auto.
  - simpl.
    pose proof (poll_wf p (with_futures f w) Hwf) as Hwf'.
    pose proof (poll_job_source p (with_futures f w)) as Hjs.
    pose proof (poll_api_calls_le p (with_futures f w)) as Hle.
    assert (Hg' := poll_keeps_pending p (with_futures f w) id h Hwf Hg
                     (Hp f (or_introl eq_refl)) Hsrc).
    destruct (poll (p, with_futures f w)) as [r [p' w']]. simpl in *.
    destruct (IH p' w' id h Hwf' Hg') as (H1 & H2 & H3 & H4).
    + intros g Hin. apply Hp. now right.
    + apply (hands_out_no_more_ext id w); assumption.
    + repeat split; auto; [now rewrite H3 | lia].
Qed.

Lemma run_ticks_absent snaps : forall p w id,
  dict_wf (in_progress p) ->
  dict_get Z.eqb id (in_progress p) = None ->
  hands_out_no_more id w ->
  dict_get Z.eqb id (in_progress (fst (run_ticks snaps (p, w)))) = None.
Proof.
  induction snaps as [|f rest IH]; intros p w id Hwf Hg Hsrc; [exact Hg|].
  simpl.
  pose proof (poll_wf p (with_futures f w) Hwf) as Hwf'.
  pose proof (poll_job_source p (with_futures f w)) as Hjs.
  pose proof (poll_api_calls_le p (with_futures f w)) as Hle.
  assert (Hg' := poll_keeps_absent p (with_futures f w) id Hwf Hg Hsrc).
  destruct (poll (p, with_futures f w)) as [r [p' w']]. simpl in *.
  apply IH; auto. apply (hands_out_no_more_ext id w); assumption.
Qed.

Lemma In_firstn {A} (x : A) k l : In x (firstn k l) -> In x l.
Proof.
  intros H. rewrite <- (firstn_skipn k l). apply in_or_app. now left.
Qed.

(** ** [format_track_data] *)

Lemma heap_set_same r t h : heap_set r t h r = t.
Proof. unfold heap_set. now rewrite Nat.eqb_refl. Qed.

Lemma heap_set_other r r' t h : r' <> r -> heap_set r t h r' = h r'.
Proof. unfold heap_set. intros H. apply Nat.eqb_neq in H. now rewrite H. Qed.

(** The loop never raises; it leaves every listed track without the key
    and every other track as it was. *)
Lemma drop_frame_start_spec tracks : forall h,
  exists h',
    drop_frame_start tracks h = (Ret tt, h') /\
    forall r,
      h' r = if existsb (Nat.eqb r) tracks
             then dict_remove String.eqb "frame_start" (h r)
             else h r.
Proof.
  induction tracks as [|t rest IH]; intros h.
  - exists h. split; reflexivity.
  - simpl drop_frame_start.
    destruct (dict_mem String.eqb "frame_start" (h t)) eqn:Hm.
    + rewrite (dict_del_present String.eqb _ _ Hm).
      destruct (IH (heap_set t (dict_remove String.eqb "frame_start" (h t)) h))
        as (h' & E & Hh').
      exists h'. split; [exact E|]. intros r. rewrite Hh'. simpl.
      destruct (Nat.eqb_spec r t) as [->|Hne]; simpl.
      * rewrite heap_set_same.
        destruct (existsb (Nat.eqb t) rest); [|reflexivity].
        apply (dict_remove_twice String.eqb Seqb_spec).
      * now rewrite heap_set_other.
    + destruct (IH h) as (h' & E & Hh').
      exists h'. split; [exact E|]. intros r. rewrite Hh'. simpl.
      destruct (Nat.eqb_spec r t) as [->|Hne]; simpl; [|reflexivity].
      destruct (existsb (Nat.eqb t) rest); [reflexivity|].
      symmetry. now apply (dict_remove_absent String.eqb Seqb_spec).
Qed.

Lemma existsb_eqb_In r (l : list ref) : existsb (Nat.eqb r) l = true <-> In r l.
Proof.
  rewrite existsb_exists. split.
  - intros (x & Hx & E). apply Nat.eqb_eq in E. now subst.
  - intros H. exists r. split; [exact H | apply Nat.eqb_refl].
Qed.

(** A failure that carries its traceback is logged once by the reap, with
    recording type, state, job id, error and traceback, and the reap
    returns; nothing is handed to the pool. *)
Lemma reap_logs_failure_once p w id h err tb :
  in_progress p = [(id, h)] ->
  futures w h = Finished (Some err) ->
  err_traceback err = Some tb ->
  reap_completed (p, w) =
  (Ret tt,
   (with_in_progress [] p,
    add_events
      [EvLog ERROR
         (failed_msg (recording_type p) (processing_state p) id (err_str err) tb)]
      w)).
Proof.
  intros Hp Hf Htb. rewrite reap_completed_eq, Hp, for_each_cons, reap_one_eq, Hf.
  unfold dict_del, dict_mem. rewrite Hp. simpl. rewrite Z.eqb_refl, Htb. simpl.
  reflexivity.
Qed.

(** ** Worked ticks *)

(** An idle processor with a backlog: one fetch, one job submitted. *)
Example tick_schedules_one_job :
  let s := poll (thermal1, world0 all_pending backlog) in
  fst s = Ret tt /\
  in_progress (fst (snd s)) = [(10, 0%nat)] /\
  trace (snd (snd s)) =
    [EvNextJob "thermalRaw" "getMetadata";
     EvLog DEBUG "scheduling 10 (thermalRaw: getMetadata)";
     EvSchedule thermal_process {| rec_id := 10; rec_type := "thermalRaw" |} 0%nat].
Proof. vm_compute. repeat split; reflexivity. Qed.

(** Two workers, jobs 10, 11, 12 waiting, no job finishing: the third tick
    finds both workers busy and does not fetch. *)
Example two_workers_fill_up :
  let p := Processor_init "thermalRaw" "getMetadata" thermal_process 2 in
  let s := run_ticks [all_pending; all_pending; all_pending]
             (p, world0 all_pending backlog) in
  in_progress (fst s) = [(10, 0%nat); (11, 1%nat)] /\
  api_calls (snd s) = 2%nat.
Proof. vm_compute. split; reflexivity. Qed.

(** Job 5 failed in its handler, job 6 succeeded, job 7 still runs: both
    finished jobs are reaped, the failure is logged once, then the fetch. *)
Example failed_job_is_reaped_and_logged :
  let s := poll (busy3, world0 one_failed_one_ok no_jobs) in
  fst s = Ret tt /\
  in_progress (fst (snd s)) = [(7, 2%nat)] /\
  trace (snd (snd s)) =
    [EvLog ERROR
       ("thermalRaw.getMetadata processing of 5 failed: boom:" ++ newline
          ++ "Traceback (most recent call last): ...")%string;
     EvNextJob "thermalRaw" "getMetadata"].
Proof. vm_compute. repeat split; reflexivity. Qed.

(** [main] with no thermal worker configured registers two processors. *)
Example main_skips_category_without_workers :
  map recording_type
    (fst (main {| audio_convert_workers := 1;
                  audio_analysis_workers := 2;
                  thermal_workers := 0 |} [] (world0 all_pending no_jobs)))
  = ["audio"; "audio"].
Proof. reflexivity. Qed.

(** A track with ["frame_start"] loses it, in place. *)
Example format_track_data_drops_key :
  let h : Heap := fun _ => [("frame_start", PyInt 3); ("num_frames", PyInt 9)] in
  fst (format_track_data (TracksList [0%nat]) h) = Ret (SameList [0%nat]) /\
  snd (format_track_data (TracksList [0%nat]) h) 0%nat = [("num_frames", PyInt 9)] /\
  snd (format_track_data (TracksList [0%nat]) h) 1%nat
    = [("frame_start", PyInt 3); ("num_frames", PyInt 9)].
Proof. vm_compute. repeat split; reflexivity. Qed.

(** * The claims *)

(** C1, as the claim states it, fails: with two processors and a job source
    that is down, the first [poll] raises and the second processor is not
    polled in that pass. *)
Lemma C1_counterexample :
  ~ (forall processors w,
       is_raise (fst (fst (poll_all 0 processors w))) = true ->
       forall j, (j < List.length processors)%nat ->
         polled (emitted w (snd (main_pass processors w))) j = true).
Proof.
  intros H.
  specialize (H [audio1; thermal1] (world0 all_pending unreachable)
                eq_refl 1%nat (Nat.lt_succ_diag_r 1)).
  vm_compute in H. discriminate H.
Qed.

(** C1, amended: when the [poll] of one processor raises during a pass, the
    main loop catches and logs the error, polls none of the processors that
    come after it in that pass, and then sleeps the fixed delay. *)
Theorem C1_error_ends_the_pass ps1 p ps2 w ps1' w1 e p' w2 :
  poll_all 0 ps1 w = (Ret tt, ps1', w1) ->
  poll (p, add_event (EvPoll (List.length ps1)) w1) = (Raise e, (p', w2)) ->
  main_pass (ps1 ++ p :: ps2) w =
    (ps1' ++ p' :: ps2,
     add_events [EvLog ERROR (format_exc e); EvSleep SLEEP_SECS] w2) /\
  forall j, (List.length ps1 < j)%nat ->
    polled (emitted w (snd (main_pass (ps1 ++ p :: ps2) w))) j = false.
Proof.
  intros E1 E2.
  assert (Em : main_pass (ps1 ++ p :: ps2) w =
               (ps1' ++ p' :: ps2,
                add_events [EvLog ERROR (format_exc e); EvSleep SLEEP_SECS] w2)).
  { unfold main_pass. rewrite (poll_all_app ps1 0 w ps1' w1 (p :: ps2) E1).
    simpl. rewrite E2. unfold add_event. now rewrite add_events_app. }
  split; [exact Em|]. intros j Hj. rewrite Em. simpl snd.
  apply poll_all_trace in E1 as (evs1 & Ht1 & Hp1).
  destruct (poll_trace p (add_event (EvPoll (List.length ps1)) w1)) as (evs2 & Ht2 & Hp2).
  rewrite E2 in Ht2. simpl in Ht2.
  erewrite emitted_app.
  2:{ simpl. rewrite Ht2, Ht1, <- !app_assoc. reflexivity. }
  rewrite !polled_app, Hp1, Hp2 by (simpl; lia). simpl.
  rewrite ?orb_false_r. apply Nat.eqb_neq. lia.
Qed.

Lemma C1_error_ends_the_pass_witness :
  polled
    (emitted (world0 all_pending unreachable)
       (snd (main_pass ([] ++ audio1 :: [thermal1])
               (world0 all_pending unreachable)))) 1 = false.
Proof.
  exact (proj2
    (C1_error_ends_the_pass [] audio1 [thermal1]
       (world0 all_pending unreachable) []
       (world0 all_pending unreachable)
       (RemoteError "ConnectionError: job API unreachable")
       audio1
       (add_event (EvNextJob "audio" "toMp3")
          (count_call (add_event (EvPoll 0) (world0 all_pending unreachable))))
       eq_refl eq_refl) 1%nat Nat.lt_0_1).
Defined.

(** C2: for every dispatcher the main loop ticks, the number of entries in
    [in_progress] is at most [num_workers] when [poll] starts and when it
    ends; the tick adds at most one entry, and only when the size after the
    reap is below the worker count. *)
Theorem C2_in_flight_within_capacity p w :
  tick_reachable p ->
  let pr := fst (snd (reap_completed (p, w))) in
  let p' := fst (snd (poll (p, w))) in
  dict_len (in_progress p) <= num_workers p /\
  num_workers p' = num_workers p /\
  dict_len (in_progress p') <= num_workers p' /\
  dict_len (in_progress p') <= dict_len (in_progress pr) + 1 /\
  (dict_len (in_progress pr) < dict_len (in_progress p') ->
   dict_len (in_progress pr) < num_workers pr).
Proof.
  intros Hr pr p'. pose proof (tick_reachable_bound p Hr) as Hb.
  destruct (poll_keeps_bound p w Hb) as [Hn Hl].
  destruct (poll_adds_at_most_one p w) as [Ha Hc].
  repeat split; assumption.
Qed.

Lemma C2_in_flight_within_capacity_witness :
  tick_reachable
    (fst (snd (poll (thermal1, world0 all_pending backlog)))) /\
  dict_len
    (in_progress
       (fst (snd (poll (fst (snd (poll (thermal1, world0 all_pending backlog))),
                        world0 all_pending backlog))))) <= 1.
Proof.
  assert (H : tick_reachable
                (fst (snd (poll (thermal1, world0 all_pending backlog))))).
  { apply reach_poll.
    apply (reach_add "thermalRaw" "getMetadata" thermal_process 1). reflexivity. }
  split; [exact H|].
  exact (proj1 (proj2 (proj2
    (C2_in_flight_within_capacity
       (fst (snd (poll (thermal1, world0 all_pending backlog))))
       (world0 all_pending backlog) H)))).
Defined.

(** C3: when the size of [in_progress] after the reap equals or exceeds
    [num_workers], [poll] ends with the reap: [next_job] is not called. *)
Theorem C3_no_fetch_at_capacity p w :
  let pr := fst (snd (reap_completed (p, w))) in
  num_workers pr <= dict_len (in_progress pr) ->
  poll (p, w) = reap_completed (p, w) /\
  count_next_job (emitted w (snd (snd (poll (p, w))))) = 0%nat /\
  api_calls (snd (snd (poll (p, w)))) = api_calls w.
Proof.
  intros pr Hfull. subst pr. rewrite poll_eq.
  destruct (reap_completed (p, w)) as [[u|e] [p1 w1]] eqn:Er;
    rewrite reap_completed_eq in Er; apply reap_loop_frame in Er;
    destruct Er as (_ & _ & _ & _ & _ & evs & -> & Hlogs); simpl in *.
  - apply Z.geb_le in Hfull. rewrite Hfull. simpl.
    destruct u. rewrite emitted_add_events. split; [reflexivity|].
    split; [now apply logs_no_next_job | reflexivity].
  - rewrite emitted_add_events. split; [reflexivity|].
    split; [now apply logs_no_next_job | reflexivity].
Qed.

Lemma C3_no_fetch_at_capacity_witness :
  count_next_job
    (emitted (world0 all_pending backlog)
       (snd (snd (poll (busy1, world0 all_pending backlog))))) = 0%nat.
Proof.
  apply (C3_no_fetch_at_capacity busy1 (world0 all_pending backlog)).
  vm_compute. discriminate.
Defined.

(** C4: one execution of [poll] calls the job source's [next_job] at most
    once, whatever is pending and whatever was reaped. *)
Theorem C4_next_job_at_most_once p w :
  let w' := snd (snd (poll (p, w))) in
  (count_next_job (emitted w w') <= 1)%nat /\
  (api_calls w <= api_calls w' <= S (api_calls w))%nat.
Proof.
  rewrite poll_eq.
  destruct (reap_completed (p, w)) as [[u|e] [p1 w1]] eqn:Er;
    rewrite reap_completed_eq in Er; apply reap_loop_frame in Er;
    destruct Er as (_ & _ & _ & _ & _ & evs & -> & Hlogs);
    pose proof (logs_no_next_job evs Hlogs) as Hz.
  - destruct (dict_len (in_progress p1) >=? num_workers p1).
    + simpl. rewrite emitted_add_events. lia.
    + destruct (job_source (add_events evs w) (api_calls (add_events evs w))
                  (recording_type p1) (processing_state p1)); simpl.
      all: erewrite emitted_app by (simpl; rewrite <- ?app_assoc; reflexivity).
      all: rewrite count_next_job_app, Hz; unfold count_next_job; simpl; lia.
  - simpl. rewrite emitted_add_events. lia.
Qed.




(** C6: the claim fails on the code.  Jobs 5, 6 and 7 are in flight;
    job 5 ended with an error object that has no [traceback] attribute and
    job 6 has finished.  The reap of this tick raises at job 5, so job 6,
    whose future reports done, is still in [in_progress] when the tick
    ends; it is removed by the reap of the next tick. *)
Theorem C6_done_entry_survives_raising_reap :
  let w := world0 bare_failure no_jobs in
  let tick1 := poll (busy3, w) in
  let tick2 := poll (fst (snd tick1), with_futures bare_failure (snd (snd tick1))) in
  dict_get Z.eqb 6 (in_progress busy3) = Some 1%nat /\
  is_done (futures w 1%nat) = true /\
  fst tick1 = Raise (AttributeError "traceback") /\
  dict_get Z.eqb 6 (in_progress (fst (snd tick1))) = Some 1%nat /\
  fst tick2 = Ret tt /\
  dict_get Z.eqb 6 (in_progress (fst (snd tick2))) = None.
Proof. vm_compute. repeat split; reflexivity. Qed.

(** C7: the claim fails on the code.  Job 5 ended with an error object that
    has no [traceback] attribute: [poll] raises [AttributeError] and nothing
    is logged for the job. *)
Theorem C7_bare_failure_escapes_poll :
  let p := with_in_progress [(5, 0%nat)] thermal1 in
  let w := world0 bare_failure no_jobs in
  fst (poll (p, w)) = Raise (AttributeError "traceback") /\
  filter is_log (emitted w (snd (snd (poll (p, w))))) = [] /\
  in_progress (fst (snd (poll (p, w)))) = [].
Proof. vm_compute. repeat split; reflexivity. Qed.

(** C8: [add] with [num_workers < 1] leaves the list of processors as it
    is; with [num_workers >= 1] it appends exactly one new processor. *)
Theorem C8_add_needs_a_worker rt ps f n (processors : list Processor) :
  (n < 1 -> add rt ps f n processors = processors) /\
  (1 <= n ->
   add rt ps f n processors = processors ++ [Processor_init rt ps f n] /\
   List.length (add rt ps f n processors) = S (List.length processors)).
Proof.
  unfold add. split; intros Hn.
  - apply Z.ltb_lt in Hn. now rewrite Hn.
  - apply Z.ltb_ge in Hn. rewrite Hn. split; [reflexivity|].
    rewrite length_app. simpl. lia.
Qed.

(** C9: a tick of a dispatcher with nothing in flight, when the job source
    has no job, changes nothing: the dispatcher is as before, nothing is
    handed to the pool and nothing is logged. *)
Theorem C9_idle_tick_is_noop p w :
  in_progress p = [] ->
  job_source w (api_calls w) (recording_type p) (processing_state p) = ApiNone ->
  fst (poll (p, w)) = Ret tt /\
  fst (snd (poll (p, w))) = p /\
  filter is_schedule (emitted w (snd (snd (poll (p, w))))) = [] /\
  filter is_log (emitted w (snd (snd (poll (p, w))))) = [] /\
  next_handle (snd (snd (poll (p, w)))) = next_handle w.
Proof.
  intros Hempty Hnone. rewrite poll_eq, reap_completed_eq, Hempty. simpl.
  rewrite Hempty.
  destruct (dict_len [] >=? num_workers p).
  - simpl. unfold emitted. rewrite skipn_all. repeat split; reflexivity.
  - rewrite Hnone. simpl.
    erewrite emitted_app by reflexivity. repeat split; reflexivity.
Qed.

Lemma C9_idle_tick_is_noop_witness :
  fst (snd (poll (thermal1, world0 all_pending no_jobs))) = thermal1.
Proof.
  apply (C9_idle_tick_is_noop thermal1 (world0 all_pending no_jobs));
    reflexivity.
Defined.

(** C10: [format_track_data] returns [{}] for [None] and for the empty
    list; for any other list it returns that same list, and in the heap
    every listed track has lost ["frame_start"] and kept its other keys;
    a track without the key, and every track not listed, is untouched. *)
Theorem C10_format_track_data (h : Heap) :
  format_track_data TracksNone h = (Ret EmptyDict, h) /\
  format_track_data (TracksList []) h = (Ret EmptyDict, h) /\
  forall track rest,
    let tracks := track :: rest in
    exists h',
      format_track_data (TracksList tracks) h = (Ret (SameList tracks), h') /\
      (forall r, In r tracks ->
         h' r = dict_remove String.eqb "frame_start" (h r) /\
         dict_get String.eqb "frame_start" (h' r) = None /\
         (forall k, k <> "frame_start" ->
            dict_get String.eqb k (h' r) = dict_get String.eqb k (h r)) /\
         (dict_mem String.eqb "frame_start" (h r) = false -> h' r = h r)) /\
      (forall r, ~ In r tracks -> h' r = h r).
Proof.
  split; [reflexivity|]. split; [reflexivity|].
  intros track rest tracks.
  destruct (drop_frame_start_spec tracks h) as (h' & E & Hh').
  exists h'. split; [|split].
  - unfold format_track_data. simpl falsy. cbv iota. simpl items_of.
    fold tracks. now rewrite E.
  - intros r Hin. apply existsb_eqb_In in Hin.
    assert (Er : h' r = dict_remove String.eqb "frame_start" (h r)).
    { now rewrite Hh', Hin. }
    rewrite Er. split; [reflexivity|]. split; [|split].
    + apply (dict_get_remove_same String.eqb Seqb_spec).
    + intros k Hk. now apply (dict_get_remove_other String.eqb Seqb_spec).
    + intros Hm. now apply (dict_remove_absent String.eqb Seqb_spec).
  - intros r Hnin. rewrite Hh'.
    destruct (existsb (Nat.eqb r) tracks) eqn:Hex; [|reflexivity].
    apply existsb_eqb_In in Hex. contradiction.
Qed.

(** * Further properties of the scheduler *)

Lemma tick_events_no_marks evs :
  forallb is_tick_event evs = true ->
  poll_marks evs = [] /\ filter is_sleep evs = [].
Proof.
  induction evs as [|e evs IH]; simpl; [auto|].
  intros H. apply andb_prop in H as [He H]. destruct (IH H) as [IH1 IH2].
  destruct e; try discriminate He; simpl; auto.
Qed.

Lemma logs_are_tick_events evs :
  forallb is_log evs = true -> forallb is_tick_event evs = true.
Proof.
  induction evs as [|e evs IH]; simpl; [auto|].
  intros H. apply andb_prop in H as [He H]. unfold is_tick_event at 1.
  rewrite He. simpl. auto.
Qed.

(** A tick adds log lines, at most one fetch and one submission. *)
Lemma poll_events p w :
  exists evs,
    trace (snd (snd (poll (p, w)))) = trace w ++ evs /\
    forallb is_tick_event evs = true.
Proof.
  rewrite poll_eq.
  destruct (reap_completed (p, w)) as [[u|e] [p1 w1]] eqn:Er;
    rewrite reap_completed_eq in Er; apply reap_loop_frame in Er;
    destruct Er as (_ & _ & _ & _ & _ & evs & -> & Hlogs);
    pose proof (logs_are_tick_events evs Hlogs) as Ht.
  - destruct (dict_len (in_progress p1) >=? num_workers p1).
    + exists evs. split; [reflexivity | exact Ht].
    + destruct (job_source (add_events evs w) (api_calls (add_events evs w))
                  (recording_type p1) (processing_state p1)); simpl.
      all: eexists; split; [rewrite <- ?app_assoc; reflexivity|].
      all: rewrite forallb_app, Ht; reflexivity.
  - exists evs. split; [reflexivity | exact Ht].
Qed.

Lemma poll_marks_app evs1 evs2 :
  poll_marks (evs1 ++ evs2) = poll_marks evs1 ++ poll_marks evs2.
Proof. unfold poll_marks. apply flat_map_app. Qed.

(** The loop over the processors polls a prefix of them, one after the
    other; all of them when no [poll] raises. *)
Lemma poll_all_marks ps : forall i w,
  exists n evs,
    (n <= List.length ps)%nat /\
    trace (snd (poll_all i ps w)) = trace w ++ evs /\
    poll_marks evs = seq i n /\
    filter is_sleep evs = [] /\
    (is_raise (fst (fst (poll_all i ps w))) = false -> n = List.length ps) /\
    List.length (snd (fst (poll_all i ps w))) = List.length ps.
Proof.
  induction ps as [|p rest IH]; intros i w.
  - exists 0%nat, []. simpl. rewrite app_nil_r. repeat split; auto.
  - simpl poll_all.
    destruct (poll_events p (add_event (EvPoll i) w)) as (evs & Ht & Hev).
    destruct (tick_events_no_marks evs Hev) as [Hm Hs].
    destruct (poll (p, add_event (EvPoll i) w)) as [[u|e] [p1 w1]]; simpl in Ht.
    + destruct (IH (S i) w1) as (n & evs2 & Hn & Ht2 & Hm2 & Hs2 & Hall & Hlen).
      destruct (poll_all (S i) rest w1) as [[r2 rest2] w2]. simpl in *.
      exists (S n), ([EvPoll i] ++ evs ++ evs2). repeat split.
      * lia.
      * rewrite Ht2, Ht. now rewrite <- !app_assoc.
      * rewrite !poll_marks_app, Hm, Hm2. reflexivity.
      * rewrite !filter_app, Hs, Hs2. reflexivity.
      * intros Hr. now rewrite (Hall Hr).
      * now rewrite Hlen.
    + exists 1%nat, ([EvPoll i] ++ evs). simpl. repeat split.
      * lia.
      * rewrite Ht. now rewrite <- !app_assoc.
      * now rewrite Hm.
      * exact Hs.
      * discriminate.
Qed.


Lemma main_pass_trace processors w :
  exists evs,
    trace (snd (main_pass processors w)) = trace w ++ evs /\
    filter is_sleep evs = [EvSleep SLEEP_SECS] /\
    List.length (fst (main_pass processors w)) = List.length processors.
Proof.
  destruct (poll_all_marks processors 0%nat w)
    as (n & evs & Hn & Ht & Hm & Hs & Hall & Hlen).
  unfold main_pass.
  destruct (poll_all 0 processors w) as [[r ps'] w']. simpl in *.
  destruct r as [u|e]; eexists; (split; [simpl; rewrite Ht, <- ?app_assoc; reflexivity|]).
  - rewrite filter_app, Hs. split; [reflexivity | exact Hlen].
  - rewrite filter_app, Hs. split; [reflexivity | exact Hlen].
Qed.

(** X2: the main loop sleeps [SLEEP_SECS] once per pass, whether or not a
    [poll] raised in it, and never anywhere else. *)
Theorem main_loop_sleeps_once_per_pass snaps : forall processors w,
  filter is_sleep (emitted w (snd (main_loop snaps processors w)))
  = repeat (EvSleep SLEEP_SECS) (List.length snaps).
Proof.
  assert (H : forall snaps processors w, exists evs,
            trace (snd (main_loop snaps processors w)) = trace w ++ evs /\
            filter is_sleep evs = repeat (EvSleep SLEEP_SECS) (List.length snaps)).
  { clear snaps. induction snaps as [|f rest IH]; intros processors w.
    - exists []. simpl. now rewrite app_nil_r.
    - simpl main_loop.
      destruct (main_pass_trace processors (with_futures f w)) as (evs & Ht & Hs & _).
      destruct (main_pass processors (with_futures f w)) as [ps' w']. simpl in Ht.
      destruct (IH ps' w') as (evs2 & Ht2 & Hs2).
      exists (evs ++ evs2). split.
      + rewrite Ht2, Ht. now rewrite <- app_assoc.
      + rewrite filter_app, Hs, Hs2. reflexivity. }
  intros processors w. destruct (H snaps processors w) as (evs & Ht & Hs).
  now rewrite (emitted_app _ _ _ Ht).
Qed.


Section DictSizes.
Context {K V : Type}.
Variable eqb : K -> K -> bool.
Hypothesis eqb_spec : forall a b, reflect (a = b) (eqb a b).

Lemma dict_remove_shrinks k (d : list (K * V)) :
  dict_mem eqb k d = true ->
  (List.length (dict_remove eqb k d) < List.length d)%nat.
Proof using eqb_spec.
  unfold dict_mem. induction d as [|[k0 v0] rest IH]; simpl; [discriminate|].
  destruct (eqb k k0); simpl.
  - intros _. pose proof (dict_remove_length eqb k rest). unfold dict_remove in *. lia.
  - intros H. apply IH in H. unfold dict_remove in *. lia.
Qed.

Lemma dict_set_tracked_length k v v' (d : list (K * V)) :
  dict_get eqb k d = Some v ->
  List.length (dict_set eqb k v' d) = List.length d.
Proof using eqb_spec.
  induction d as [|[k0 v0] rest IH]; simpl; [discriminate|].
  destruct (eqb k k0); simpl; [reflexivity|]. intros H. now rewrite IH.
Qed.

Lemma dict_set_new_length k v (d : list (K * V)) :
  dict_get eqb k d = None ->
  List.length (dict_set eqb k v d) = S (List.length d).
Proof using eqb_spec.
  induction d as [|[k0 v0] rest IH]; simpl; [reflexivity|].
  destruct (eqb k k0); simpl; [discriminate|]. intros H. now rewrite IH.
Qed.

End DictSizes.

(** A reap writes error lines only, at most one for each entry it removes. *)
Lemma reap_loop_logs items : forall p w r p' w',
  for_each items reap_one (p, w) = (r, (p', w')) ->
  exists evs,
    w' = add_events evs w /\
    forallb is_error_log evs = true /\
    (List.length evs + List.length (in_progress p')
       <= List.length (in_progress p))%nat.
Proof.
  induction items as [|[k h] rest IH]; intros p w r p' w' E.
  - simpl in E. unfold ret in E. inversion E; subst.
    exists []. rewrite add_events_nil. simpl. auto.
  - rewrite for_each_cons, reap_one_eq in E.
    destruct (futures w h) as [|exc]; [now apply IH in E|].
    unfold dict_del in E.
    destruct (dict_mem Z.eqb k (in_progress p)) eqn:Hm.
    2:{ inversion E; subst. exists []. rewrite add_events_nil. simpl. auto. }
    pose proof (dict_remove_shrinks Z.eqb Zeqb_spec k (in_progress p) Hm) as Hlen.
    destruct exc as [err|]; [destruct (err_traceback err) as [tb|]|].
    + apply IH in E. simpl in E. destruct E as (evs & E6 & E7 & E8).
      eexists. rewrite E6, add_events_app. split; [reflexivity|].
      simpl. split; [exact E7 | lia].
    + inversion E; subst. simpl. exists []. rewrite add_events_nil. simpl.
      split; [reflexivity|]. split; [reflexivity | lia].
    + apply IH in E. simpl in E. destruct E as (evs & E6 & E7 & E8).
      exists evs. repeat split; auto. lia.
Qed.

(** X3: with room left after the reap and a job handed out, [poll] returns
    normally; after the reap's error lines the tick fetches once, logs the
    scheduling, submits that one job with the processor's worker function,
    and tracks the new future under the job's id. *)
Theorem poll_submits_fetched_job p w r :
  let pr := fst (snd (reap_completed (p, w))) in
  fst (reap_completed (p, w)) = Ret tt ->
  dict_len (in_progress pr) < num_workers p ->
  job_source w (api_calls w) (recording_type p) (processing_state p) = ApiJob r ->
  fst (poll (p, w)) = Ret tt /\
  in_progress (fst (snd (poll (p, w))))
    = dict_set Z.eqb (rec_id r) (next_handle w) (in_progress pr) /\
  dict_get Z.eqb (rec_id r) (in_progress (fst (snd (poll (p, w)))))
    = Some (next_handle w) /\
  next_handle (snd (snd (poll (p, w)))) = S (next_handle w) /\
  exists logs,
    forallb is_error_log logs = true /\
    emitted w (snd (snd (poll (p, w))))
    = logs ++ [EvNextJob (recording_type p) (processing_state p);
               EvLog DEBUG (scheduling_msg r (processing_state p));
               EvSchedule (process_func p) r (next_handle w)].
Proof.
  intros pr Hret Hroom Hjob. subst pr. rewrite poll_eq.
  destruct (reap_completed (p, w)) as [[u|e] [p1 w1]] eqn:Er; [|discriminate].
  rewrite reap_completed_eq in Er.
  pose proof (reap_loop_logs _ _ _ _ _ _ Er) as (evs & Ew & Hlogs & _).
  apply reap_loop_frame in Er.
  destruct Er as (E1 & E2 & E3 & E4 & _). subst w1.
  simpl in Hroom. rewrite <- E4 in Hroom.
  apply Z.lt_nge in Hroom. rewrite <- Z.geb_le in Hroom.
  apply not_true_is_false in Hroom. rewrite Hroom.
  cbn [job_source api_calls add_events]. rewrite E1, E2, E3, Hjob. simpl.
  split; [reflexivity|]. split; [reflexivity|].
  split; [apply (dict_get_set_same Z.eqb Zeqb_spec)|].
  split; [reflexivity|].
  exists evs. split; [exact Hlogs|].
  apply emitted_app. simpl. now rewrite <- !app_assoc.
Qed.

Lemma poll_submits_fetched_job_witness :
  in_progress (fst (snd (poll (thermal1, world0 all_pending backlog))))
  = dict_set Z.eqb 10 0%nat [].
Proof.
  refine (proj1 (proj2
    (poll_submits_fetched_job thermal1 (world0 all_pending backlog)
       {| rec_id := 10; rec_type := "thermalRaw" |} eq_refl _ eq_refl))).
  vm_compute. reflexivity.
Defined.

(** X4: when the job source hands out an id that is still tracked, the new
    future takes the place of the old one under that id: the dictionary
    keeps its size and the old future is no longer tracked, so it is never
    reaped and its outcome never logged. *)
Theorem poll_replaces_reissued_id p w r h :
  dict_wf (in_progress p) ->
  dict_get Z.eqb (rec_id r) (in_progress p) = Some h ->
  futures w h = Pending ->
  fst (reap_completed (p, w)) = Ret tt ->
  dict_len (in_progress (fst (snd (reap_completed (p, w))))) < num_workers p ->
  job_source w (api_calls w) (recording_type p) (processing_state p) = ApiJob r ->
  let p' := fst (snd (poll (p, w))) in
  dict_get Z.eqb (rec_id r) (in_progress p') = Some (next_handle w) /\
  List.length (in_progress p')
    = List.length (in_progress (fst (snd (reap_completed (p, w))))) /\
  (forall h', In (rec_id r, h') (in_progress p') -> h' = next_handle w).
Proof.
  intros Hwf Hg Hpend Hret Hroom Hjob p'.
  destruct (poll_submits_fetched_job p w r Hret Hroom Hjob) as (_ & Ein & Hget & _).
  fold p' in Ein, Hget.
  assert (Hkept : dict_get Z.eqb (rec_id r)
            (in_progress (fst (snd (reap_completed (p, w))))) = Some h).
  { rewrite (reap_completed_spec p w Hwf). simpl.
    apply dict_get_filter_keep; auto.
    destruct (has_key (reaped w (in_progress p)) (rec_id r, h)) eqn:Hk; [|reflexivity].
    apply has_key_spec in Hk as (x & Hx & E). unfold reaped in Hx.
    apply filter_In in Hx as [Hx Hd]. apply examined_incl in Hx.
    apply (dict_get_In Z.eqb Zeqb_spec) in Hg.
    rewrite (keys_inj (in_progress p) x (rec_id r, h) Hwf Hx Hg E) in Hd.
    unfold item_done in Hd. simpl in Hd. rewrite Hpend in Hd. discriminate. }
  split; [exact Hget|]. split.
  - rewrite Ein. apply (dict_set_tracked_length Z.eqb Zeqb_spec _ h). exact Hkept.
  - intros h' Hin.
    assert (Hwf' : dict_wf (in_progress p')) by (apply poll_wf; exact Hwf).
    apply (In_dict_get Z.eqb Zeqb_spec) in Hin; [|exact Hwf'].
    congruence.
Qed.

Lemma poll_replaces_reissued_id_witness :
  dict_get Z.eqb 5
    (in_progress (fst (snd (poll (roomy, world2 all_pending (reissue 5))))))
  = Some 2%nat.
Proof.
  refine (proj1
    (poll_replaces_reissued_id roomy (world2 all_pending (reissue 5))
       {| rec_id := 5; rec_type := "thermalRaw" |} 0%nat
       _ eq_refl eq_refl eq_refl _ eq_refl)).
  - unfold dict_wf. simpl. repeat constructor; simpl; intuition discriminate.
  - vm_compute. reflexivity.
Defined.

Lemma reap_all_pending items : forall p w,
  (forall item, In item items -> item_done w item = false) ->
  for_each items reap_one (p, w) = (Ret tt, (p, w)).
Proof.
  induction items as [|[k h] rest IH]; intros p w Hp; [reflexivity|].
  rewrite for_each_cons, reap_one_eq.
  pose proof (Hp (k, h) (or_introl eq_refl)) as Hk.
  unfold item_done in Hk. simpl in Hk.
  destruct (futures w h); [|discriminate].
  apply IH. intros item Hin. apply Hp. now right.
Qed.

(** X5: a reap that has run to its end leaves only running jobs; a second
    reap in the same state of the futures removes nothing and logs
    nothing. *)
Theorem reap_twice_is_reap_once p w :
  dict_wf (in_progress p) ->
  fst (reap_completed (p, w)) = Ret tt ->
  (forall item, In item (in_progress (fst (snd (reap_completed (p, w))))) ->
     item_done w item = false) /\
  reap_completed (snd (reap_completed (p, w)))
  = (Ret tt, snd (reap_completed (p, w))).
Proof.
  intros Hwf Hret. pose proof (reap_result_ret p w Hwf Hret) as Hno.
  rewrite (reap_completed_all_reported p w Hwf Hno). simpl.
  assert (Hpend : forall item,
            In item (filter (fun item => negb (item_done w item)) (in_progress p)) ->
            item_done w item = false).
  { intros item Hin. apply filter_In in Hin as [_ Hin].
    now apply negb_true_iff in Hin. }
  split; [exact Hpend|].
  rewrite reap_completed_eq. simpl in_progress.
  apply reap_all_pending. intros item Hin. apply Hpend in Hin.
  unfold item_done in *. exact Hin.
Qed.

Lemma reap_twice_is_reap_once_witness :
  reap_completed (snd (reap_completed (busy3, world0 one_failed_one_ok no_jobs)))
  = (Ret tt, snd (reap_completed (busy3, world0 one_failed_one_ok no_jobs))).
Proof.
  refine (proj2
    (reap_twice_is_reap_once busy3 (world0 one_failed_one_ok no_jobs) _ eq_refl)).
  unfold dict_wf. simpl. repeat constructor; simpl; intuition discriminate.
Defined.

Lemma raising_item_examined w items :
  existsb (report_raises w) items = true ->
  exists item, In item (reaped w items) /\ In item items.
Proof.
  induction items as [|x rest IH]; simpl; [discriminate|].
  intros H. rewrite reaped_cons.
  destruct (report_raises w x) eqn:Hx.
  - exists x. split; [|now left].
    assert (Hd : item_done w x = true).
    { unfold report_raises in Hx. unfold item_done.
      destruct (futures w (snd x)); [discriminate | reflexivity]. }
    rewrite Hd. now left.
  - simpl in H. destruct (IH H) as (item & Hr & Hin).
    exists item. split; [|now right]. apply in_or_app. now right.
Qed.

Lemma filter_drops_one {A} (f : A -> bool) l x :
  In x l -> f x = false -> (List.length (filter f l) < List.length l)%nat.
Proof.
  induction l as [|y l IH]; simpl; [tauto|].
  intros [->|Hin] Hf.
  - rewrite Hf. pose proof (filter_length_le f l). lia.
  - specialize (IH Hin Hf). destruct (f y); simpl; lia.
Qed.

(** X6: when the reap raises, the exception is the [AttributeError] of the
    missing [traceback], [poll] ends there without a fetch, and the entry
    whose report raised is already deleted: the dictionary is strictly
    smaller, so the same job does not make a later tick raise again. *)
Theorem raising_reap_drops_an_entry p w :
  dict_wf (in_progress p) ->
  is_raise (fst (reap_completed (p, w))) = true ->
  fst (poll (p, w)) = Raise (AttributeError "traceback") /\
  poll (p, w) = reap_completed (p, w) /\
  (List.length (in_progress (fst (snd (poll (p, w)))))
     < List.length (in_progress p))%nat /\
  count_next_job (emitted w (snd (snd (poll (p, w))))) = 0%nat.
Proof.
  intros Hwf Hraise. rewrite poll_eq.
  rewrite (reap_completed_spec p w Hwf) in *. simpl in Hraise.
  destruct (existsb (report_raises w) (in_progress p)) eqn:Hex; [|discriminate].
  simpl. split; [reflexivity|]. split; [reflexivity|]. split.
  - destruct (raising_item_examined w _ Hex) as (item & Hr & Hin).
    apply (filter_drops_one _ _ item Hin).
    apply negb_false_iff. apply has_key_spec. exists item. auto.
  - rewrite emitted_add_events. apply logs_no_next_job.
    unfold failure_logs. generalize (examined w (in_progress p)).
    intros l. induction l as [|x l IH]; [reflexivity|].
    simpl. rewrite forallb_app, IH, andb_true_r. unfold failure_log.
    destruct (futures w (snd x)) as [|[err|]]; try reflexivity.
    destruct (err_traceback err); reflexivity.
Qed.

Lemma raising_reap_drops_an_entry_witness :
  (List.length
     (in_progress (fst (snd (poll (busy3, world0 bare_failure backlog)))))
   < List.length (in_progress busy3))%nat.
Proof.
  refine (proj1 (proj2 (proj2
    (raising_reap_drops_an_entry busy3 (world0 bare_failure backlog) _ eq_refl)))).
  unfold dict_wf. simpl. repeat constructor; simpl; intuition discriminate.
Defined.

(** X8: a reap calls neither the job source nor the pool: all it adds to
    the trace are error lines, at most one for each entry it removes. *)
Theorem reap_only_logs_failures p w :
  let s := snd (reap_completed (p, w)) in
  api_calls (snd s) = api_calls w /\
  next_handle (snd s) = next_handle w /\
  forallb is_error_log (emitted w (snd s)) = true /\
  (List.length (emitted w (snd s)) + List.length (in_progress (fst s))
     <= List.length (in_progress p))%nat.
Proof.
  destruct (reap_completed (p, w)) as [r [p' w']] eqn:Er. simpl.
  rewrite reap_completed_eq in Er. apply reap_loop_logs in Er.
  destruct Er as (evs & -> & Hlogs & Hlen).
  rewrite emitted_add_events. repeat split; auto.
Qed.

(** X9: in a tick in which the job source hands out no job (what comes
    after a job is handed out, reading the job and submitting it, is left
    aside), an exception leaving [poll] is either the [AttributeError] of a
    failure report without [traceback], or the error the job source raised
    on the fetch; deleting an entry never raises [KeyError]. *)
Theorem poll_raises_two_ways p w e :
  dict_wf (in_progress p) ->
  (forall r,
     job_source w (api_calls w) (recording_type p) (processing_state p)
     <> ApiJob r) ->
  fst (poll (p, w)) = Raise e ->
  (e = AttributeError "traceback" /\
   existsb (report_raises w) (in_progress p) = true) \/
  (job_source w (api_calls w) (recording_type p) (processing_state p) = ApiRaise e /\
   fst (reap_completed (p, w)) = Ret tt).
Proof.
  intros Hwf Hnojob. rewrite poll_eq, (reap_completed_spec p w Hwf).
  destruct (existsb (report_raises w) (in_progress p)).
  - simpl. intros E. inversion E. now left.
  - cbn [in_progress with_in_progress num_workers recording_type
         processing_state job_source api_calls add_events fst snd].
    destruct (dict_len _ >=? num_workers p); [discriminate|].
    destruct (job_source w (api_calls w) (recording_type p) (processing_state p))
      as [|r|e'] eqn:Ej; simpl; intros E.
    + discriminate.
    + exfalso. exact (Hnojob r eq_refl).
    + inversion E; subst. now right.
Qed.

Lemma poll_raises_two_ways_witness :
  (RemoteError "ConnectionError: job API unreachable" = AttributeError "traceback" /\
   existsb (report_raises (world0 all_pending unreachable)) (in_progress thermal1) = true) \/
  (job_source (world0 all_pending unreachable)
     (api_calls (world0 all_pending unreachable))
     (recording_type thermal1) (processing_state thermal1)
   = ApiRaise (RemoteError "ConnectionError: job API unreachable") /\
   fst (reap_completed (thermal1, world0 all_pending unreachable)) = Ret tt).
Proof.
  refine (poll_raises_two_ways thermal1 (world0 all_pending unreachable) _ _ _ eq_refl).
  - unfold dict_wf. simpl. constructor.
  - intros r H. discriminate H.
Defined.

Lemma outage_pass p0 rest w :
  in_progress p0 = [] ->
  1 <= num_workers p0 ->
  source_down w ->
  exists e,
    main_pass (p0 :: rest) w
    = (p0 :: rest,
       add_events
         [EvPoll 0; EvNextJob (recording_type p0) (processing_state p0);
          EvLog ERROR (format_exc e); EvSleep SLEEP_SECS]
         (count_call w)).
Proof.
  intros Hempty Hcap Hdown.
  destruct (Hdown (api_calls w) (recording_type p0) (processing_state p0)) as [e He].
  exists e. unfold main_pass. simpl poll_all.
  rewrite poll_eq, reap_completed_eq, Hempty. simpl for_each. unfold ret.
  rewrite Hempty.
  assert (Hc : (dict_len (@nil (Z * handle)) >=? num_workers p0) = false).
  { unfold dict_len. simpl. rewrite Z.geb_leb. apply Z.leb_gt. lia. }
  rewrite Hc. cbn [job_source api_calls add_event add_events]. rewrite He.
  unfold add_event, add_events, count_call. simpl.
  rewrite <- !app_assoc. reflexivity.
Qed.

(** X7: while the job source is down and the first processor has room, its
    fetch raises in every pass, so no processor after it is ever polled: the
    list of processors stays as it is, finished jobs of the later processors
    included. *)
Theorem outage_starves_later_processors snaps : forall p0 rest w,
  in_progress p0 = [] ->
  1 <= num_workers p0 ->
  source_down w ->
  fst (main_loop snaps (p0 :: rest) w) = p0 :: rest /\
  poll_marks (emitted w (snd (main_loop snaps (p0 :: rest) w)))
  = repeat 0%nat (List.length snaps).
Proof.
  assert (H : forall snaps p0 rest w,
            in_progress p0 = [] -> 1 <= num_workers p0 -> source_down w ->
            fst (main_loop snaps (p0 :: rest) w) = p0 :: rest /\
            exists evs,
              trace (snd (main_loop snaps (p0 :: rest) w)) = trace w ++ evs /\
              poll_marks evs = repeat 0%nat (List.length snaps)).
  { clear snaps. induction snaps as [|f tl IH]; intros p0 rest w Hempty Hcap Hdown.
    - simpl. split; [reflexivity|]. exists []. now rewrite app_nil_r.
    - simpl main_loop.
      destruct (outage_pass p0 rest (with_futures f w) Hempty Hcap Hdown) as [e ->].
      match goal with |- context [main_loop tl _ ?w1] => set (w' := w1) end.
      assert (Hdown' : source_down w') by exact Hdown.
      destruct (IH p0 rest w' Hempty Hcap Hdown') as (Hps & evs & Ht & Hm).
      split; [exact Hps|].
      eexists. split.
      + rewrite Ht. unfold w'. simpl. rewrite <- app_assoc. reflexivity.
      + rewrite poll_marks_app, Hm. reflexivity. }
  intros p0 rest w Hempty Hcap Hdown.
  destruct (H snaps p0 rest w Hempty Hcap Hdown) as (Hps & evs & Ht & Hm).
  split; [exact Hps|]. now rewrite (emitted_app _ _ _ Ht).
Qed.

Lemma outage_starves_later_processors_witness :
  fst (main_loop [one_failed_one_ok; one_failed_one_ok]
         (audio1 :: [busy3]) (world0 all_pending unreachable))
  = audio1 :: [busy3].
Proof.
  refine (proj1
    (outage_starves_later_processors [one_failed_one_ok; one_failed_one_ok]
       audio1 [busy3] (world0 all_pending unreachable) eq_refl _ _)).
  - vm_compute. discriminate.
  - intros n rt ps. eexists. reflexivity.
Defined.

Lemma poll_none_done p w :
  none_done (futures w) ->
  poll (p, w) =
  if dict_len (in_progress p) >=? num_workers p then (Ret tt, (p, w))
  else
    let w2 :=
      add_event (EvNextJob (recording_type p) (processing_state p))
        (count_call w) in
    match job_source w (api_calls w) (recording_type p) (processing_state p) with
    | ApiNone => (Ret tt, (p, w2))
    | ApiRaise e => (Raise e, (p, w2))
    | ApiJob r =>
        (Ret tt,
         (with_in_progress
            (dict_set Z.eqb (rec_id r) (next_handle w) (in_progress p)) p,
          add_event (EvSchedule (process_func p) r (next_handle w))
            (fresh_handle
               (add_event
                  (EvLog DEBUG (scheduling_msg r (processing_state p))) w2))))
    end.
Proof.
  intros Hnone. rewrite poll_eq, reap_completed_eq, reap_all_pending; [reflexivity|].
  intros item _. unfold item_done. now rewrite Hnone.
Qed.

Lemma fill_up snaps (job : nat -> Recording) : forall p w,
  (forall k, job_source w k (recording_type p) (processing_state p) = ApiJob (job k)) ->
  (forall k k', rec_id (job k) = rec_id (job k') -> k = k') ->
  (forall f, In f snaps -> none_done f) ->
  (forall id, In id (map fst (in_progress p)) ->
     exists k, (k < api_calls w)%nat /\ id = rec_id (job k)) ->
  (List.length (in_progress p) <= Z.to_nat (num_workers p))%nat ->
  let s := run_ticks snaps (p, w) in
  List.length (in_progress (fst s))
    = Nat.min (List.length (in_progress p) + List.length snaps)
        (Z.to_nat (num_workers p)) /\
  (api_calls (snd s) + List.length (in_progress p)
   = api_calls w + List.length (in_progress (fst s)))%nat.
Proof.
  induction snaps as [|f rest IH]; intros p w Hjob Hinj Hnone Hkeys Hlen s; subst s.
  - simpl. split; lia.
  - simpl run_ticks.
    rewrite (poll_none_done p (with_futures f w)) by (apply Hnone; now left).
    cbn [job_source api_calls next_handle with_futures].
    destruct (dict_len (in_progress p) >=? num_workers p) eqn:Hc.
    + (* full: nothing is fetched *)
      apply Z.geb_le in Hc. unfold dict_len in Hc.
      destruct (IH p (with_futures f w)) as [H1 H2]; auto.
      { intros g Hg. apply Hnone. now right. }
      simpl snd. split; [rewrite H1; lia | exact H2].
    + rewrite Z.geb_leb in Hc. apply Z.leb_gt in Hc. unfold dict_len in Hc.
      rewrite Hjob. simpl snd.
      set (r := job (api_calls w)).
      assert (Hnew : dict_get Z.eqb (rec_id r) (in_progress p) = None).
      { apply (dict_get_None Z.eqb Zeqb_spec). intros Hin.
        destruct (Hkeys _ Hin) as (k & Hk & E).
        apply Hinj in E. lia. }
      pose proof (dict_set_new_length Z.eqb Zeqb_spec (rec_id r) (next_handle w)
                    (in_progress p) Hnew) as Hgrow.
      match goal with
      | |- context [run_ticks rest (?p1, ?w1)] =>
          destruct (IH p1 w1) as [H1 H2]
      end.
      * exact Hjob.
      * exact Hinj.
      * intros g Hg. apply Hnone. now right.
      * simpl. intros id Hin.
        apply (dict_set_keys Z.eqb Zeqb_spec) in Hin as [->|Hin].
        -- exists (api_calls w). split; [lia | reflexivity].
        -- destruct (Hkeys _ Hin) as (k & Hk & E). exists k. split; [lia | exact E].
      * simpl. rewrite Hgrow. lia.
      * simpl in H1, H2. rewrite Hgrow in H1, H2. simpl List.length.
        split; [rewrite H1; lia | lia].
Qed.

(** X10: from an empty dictionary, with a backlog of distinct jobs and no
    job finishing, the ticks fetch one job each until [num_workers] jobs are
    in flight, and none after that. *)
Theorem backlog_fills_one_job_per_tick p w snaps :
  in_progress p = [] ->
  hands_out_fresh (recording_type p) (processing_state p) w ->
  (forall f, In f snaps -> none_done f) ->
  let s := run_ticks snaps (p, w) in
  List.length (in_progress (fst s))
    = Nat.min (List.length snaps) (Z.to_nat (num_workers p)) /\
  api_calls (snd s)
    = (api_calls w + Nat.min (List.length snaps) (Z.to_nat (num_workers p)))%nat.
Proof.
  intros Hempty (job & Hjob & Hinj) Hnone s. subst s.
  destruct (fill_up snaps job p w Hjob Hinj Hnone) as [H1 H2].
  - rewrite Hempty. simpl. tauto.
  - rewrite Hempty. simpl. lia.
  - rewrite Hempty in H1, H2. simpl in H1, H2. split; [exact H1 | lia].
Qed.

Lemma backlog_fills_one_job_per_tick_witness :
  List.length
    (in_progress
       (fst (run_ticks [all_pending; all_pending; all_pending]
               (Processor_init "thermalRaw" "getMetadata" thermal_process 2,
                world0 all_pending backlog))))
  = Nat.min 3 (Z.to_nat 2).
Proof.
  refine (proj1
    (backlog_fills_one_job_per_tick
       (Processor_init "thermalRaw" "getMetadata" thermal_process 2)
       (world0 all_pending backlog)
       [all_pending; all_pending; all_pending] eq_refl _ _)).
  - exists (fun k => {| rec_id := 10 + Z.of_nat k; rec_type := "thermalRaw" |}).
    split; [reflexivity|]. intros k k'. cbv beta iota delta [rec_id]. lia.
  - intros f [<-|[<-|[<-|[]]]] h; reflexivity.
Defined.

(** * Further properties of [thermal.py] *)

(** X11: [format_track_data] applied to its own result gives the same
    value and changes no track: the keys are gone after the first pass. *)
Theorem format_track_data_idempotent tracks h :
  let once := format_track_data tracks h in
  let twice := format_track_data tracks (snd once) in
  fst twice = fst once /\ forall r, snd twice r = snd once r.
Proof.
  unfold format_track_data. destruct (falsy tracks) eqn:Hf; simpl.
  - auto.
  - destruct (drop_frame_start_spec (items_of tracks) h) as (h1 & E1 & H1).
    rewrite E1. simpl.
    destruct (drop_frame_start_spec (items_of tracks) h1) as (h2 & E2 & H2).
    rewrite E2. simpl. split; [reflexivity|].
    intros r. rewrite H2, H1.
    destruct (existsb (Nat.eqb r) (items_of tracks)); [|reflexivity].
    apply (dict_remove_twice String.eqb Seqb_spec).
Qed.

(** ** [upload_tracks] *)

Lemma dict_mem_get_eq {K V} (eqb : K -> K -> bool) k (d d' : list (K * V)) :
  dict_get eqb k d = dict_get eqb k d' -> dict_mem eqb k d = dict_mem eqb k d'.
Proof. unfold dict_mem. now intros ->. Qed.

Lemma tag_not_id : "tag" <> "id".
Proof. discriminate. Qed.

Lemma upload_tracks_cons api recording algorithm_id t rest s :
  upload_tracks api recording algorithm_id (t :: rest) s =
  match add_track_reply api (List.length (filter is_add_track (calls s))) with
  | Raise e => (Raise e, call (CallAddTrack recording (heap s t) algorithm_id) s)
  | Ret id =>
      let s2 := store t (dict_set String.eqb "id" (PyInt id) (heap s t))
                  (call (CallAddTrack recording (heap s t) algorithm_id) s) in
      if dict_mem String.eqb "tag" (heap s2 t) then
        match add_track_tag_reply api
                (List.length (filter is_add_track_tag (calls s2))) with
        | Raise e => (Raise e, call (CallAddTrackTag recording (heap s2 t)) s2)
        | Ret _ =>
            upload_tracks api recording algorithm_id rest
              (call (CallAddTrackTag recording (heap s2 t)) s2)
        end
      else upload_tracks api recording algorithm_id rest s2
  end.
Proof.
  simpl. unfold api_add_track, api_add_track_tag.
  destruct (add_track_reply api _); [|reflexivity].
  cbv zeta. match goal with |- context [if ?c then _ else _] => destruct c end;
    [|reflexivity].
  now destruct (add_track_tag_reply api _).
Qed.

(** What a run of [upload_tracks] that returns has done. *)
Lemma upload_tracks_ret api recording algorithm_id tracks : forall s s',
  upload_tracks api recording algorithm_id tracks s = (Ret tt, s') ->
  (exists evs,
     calls s' = calls s ++ evs /\
     List.length (filter is_add_track evs) = List.length tracks /\
     List.length (filter is_add_track_tag evs)
       = List.length (tagged (heap s) tracks) /\
     Forall tag_call_ok evs) /\
  (forall r k, k <> "id" ->
     dict_get String.eqb k (heap s' r) = dict_get String.eqb k (heap s r)) /\
  (forall r, dict_mem String.eqb "id" (heap s r) = true ->
     dict_mem String.eqb "id" (heap s' r) = true) /\
  (forall r, In r tracks -> dict_mem String.eqb "id" (heap s' r) = true) /\
  (forall r, ~ In r tracks -> heap s' r = heap s r).
Proof.
  induction tracks as [|t rest IH]; intros s s' E.
  - simpl in E. inversion E; subst. split; [|repeat split; auto; tauto].
    exists []. rewrite app_nil_r. repeat split; auto.
  - rewrite upload_tracks_cons in E.
    destruct (add_track_reply api _) as [id|e]; [|discriminate].
    cbv zeta in E. unfold call, store in E. simpl heap in E. simpl calls in E.
    remember (heap_set t (dict_set String.eqb "id" (PyInt id) (heap s t)) (heap s))
      as h2 eqn:Eh2.
    assert (Hh2 : forall r k, k <> "id" ->
              dict_get String.eqb k (h2 r) = dict_get String.eqb k (heap s r)).
    { intros r k Hk. subst h2.
      destruct (Nat.eq_dec r t) as [->|Hne].
      - rewrite heap_set_same. now apply (dict_get_set_other String.eqb Seqb_spec).
      - now rewrite heap_set_other. }
    assert (Hid2 : dict_mem String.eqb "id" (h2 t) = true).
    { subst h2. rewrite heap_set_same. unfold dict_mem.
      now rewrite (dict_get_set_same String.eqb Seqb_spec). }
    assert (Hmono2 : forall r, dict_mem String.eqb "id" (heap s r) = true ->
              dict_mem String.eqb "id" (h2 r) = true).
    { intros r Hr. destruct (Nat.eq_dec r t) as [->|Hne]; [exact Hid2|].
      subst h2. now rewrite heap_set_other. }
    assert (Hother2 : forall r, r <> t -> h2 r = heap s r).
    { intros r Hne. subst h2. now rewrite heap_set_other. }
    assert (Htag2 : forall r, dict_mem String.eqb "tag" (h2 r)
                              = dict_mem String.eqb "tag" (heap s r)).
    { intros r. apply dict_mem_get_eq. apply Hh2. exact tag_not_id. }
    assert (Htagged : tagged h2 rest = tagged (heap s) rest).
    { unfold tagged. apply filter_ext. intros r. apply Htag2. }
    clear Eh2.
    assert (Hcons : tagged (heap s) (t :: rest)
              = if dict_mem String.eqb "tag" (h2 t)
                then t :: tagged (heap s) rest else tagged (heap s) rest).
    { unfold tagged. simpl. now rewrite Htag2. }
    rewrite Hcons. clear Hcons.
    destruct (dict_mem String.eqb "tag" (h2 t)) eqn:Htag.
    + destruct (add_track_tag_reply api _) as [[]|e]; [|discriminate].
      apply IH in E. simpl heap in E. simpl calls in E.
      destruct E as ((evs & Hc & Ha & Hg & Hok) & Hk & Hmono & Hin & Hout).
      split; [|repeat split].
      * exists ([CallAddTrack recording (heap s t) algorithm_id]
                  ++ [CallAddTrackTag recording (h2 t)] ++ evs).
        split; [rewrite Hc; now rewrite <- !app_assoc|].
        simpl. rewrite Ha, Hg, Htagged.
        repeat split; auto.
        constructor; [exact I|]. constructor; [|exact Hok]. simpl. auto.
      * intros r k Hne. rewrite Hk by assumption. now apply Hh2.
      * intros r Hr. apply Hmono. now apply Hmono2.
      * intros r [<-|Hr]; [now apply Hmono | now apply Hin].
      * intros r Hr. rewrite Hout by (intros H; apply Hr; now right).
        apply Hother2. intros ->. apply Hr. now left.
    + apply IH in E. simpl heap in E. simpl calls in E.
      destruct E as ((evs & Hc & Ha & Hg & Hok) & Hk & Hmono & Hin & Hout).
      split; [|repeat split].
      * exists ([CallAddTrack recording (heap s t) algorithm_id] ++ evs).
        split; [rewrite Hc; now rewrite <- !app_assoc|].
        simpl. rewrite Ha, Hg, Htagged.
        repeat split; auto. constructor; [exact I | exact Hok].
      * intros r k Hne. rewrite Hk by assumption. now apply Hh2.
      * intros r Hr. apply Hmono. now apply Hmono2.
      * intros r [<-|Hr]; [now apply Hmono | now apply Hin].
      * intros r Hr. rewrite Hout by (intros H; apply Hr; now right).
        apply Hother2. intros ->. apply Hr. now left.
Qed.




Lemma upload_tracks_app api recording algorithm_id l1 : forall l2 s,
  upload_tracks api recording algorithm_id (l1 ++ l2) s =
  match upload_tracks api recording algorithm_id l1 s with
  | (Ret _, s1) => upload_tracks api recording algorithm_id l2 s1
  | (Raise e, s1) => (Raise e, s1)
  end.
Proof.
  induction l1 as [|t rest IH]; intros l2 s.
  - simpl. reflexivity.
  - change ((t :: rest) ++ l2) with (t :: (rest ++ l2)).
    rewrite !upload_tracks_cons.
    destruct (add_track_reply api _) as [id|e]; [|reflexivity].
    cbv zeta.
    match goal with |- context [if ?c then _ else _] => destruct c end.
    + destruct (add_track_tag_reply api _) as [[]|e]; [apply IH | reflexivity].
    + apply IH.
Qed.

(** X13: when [add_track] fails for a track, [upload_tracks] raises that
    error at once and undoes nothing: the tracks before it have been sent
    and keep their ids, the failing call is the last one made, and the
    tracks after it are never sent. *)
Theorem upload_tracks_stops_at_first_failure
    api recording algorithm_id sent track rest s s1 e :
  upload_tracks api recording algorithm_id sent s = (Ret tt, s1) ->
  add_track_reply api (List.length (filter is_add_track (calls s1))) = Raise e ->
  let out := upload_tracks api recording algorithm_id (sent ++ track :: rest) s in
  fst out = Raise e /\
  calls (snd out)
    = calls s1 ++ [CallAddTrack recording (heap s1 track) algorithm_id] /\
  (forall r, heap (snd out) r = heap s1 r) /\
  (forall r, In r sent -> dict_mem String.eqb "id" (heap (snd out) r) = true) /\
  (forall r, ~ In r sent -> heap (snd out) r = heap s r).
Proof.
  intros Esent Hfail out. subst out.
  rewrite upload_tracks_app, Esent. simpl. unfold api_add_track. rewrite Hfail.
  simpl. apply upload_tracks_ret in Esent.
  destruct Esent as (_ & _ & _ & Hin & Hout). repeat split; auto.
Qed.

Lemma upload_tracks_stops_at_first_failure_witness :
  fst (upload_tracks api_flaky job7 3 ([0%nat] ++ 1%nat :: [2%nat])
         (worker0 two_tracks))
  = Raise (RemoteError "500 Server Error").
Proof.
  refine (proj1
    (upload_tracks_stops_at_first_failure api_flaky job7 3 [0%nat] 1%nat [2%nat]
       (worker0 two_tracks)
       (snd (upload_tracks api_flaky job7 3 [0%nat] (worker0 two_tracks)))
       (RemoteError "500 Server Error") eq_refl eq_refl)).
Defined.


(** ** [update_metadata] *)

(** At nine frames a second no count falls half way between two seconds:
    the duration is the frame count divided by nine, to the nearest. *)
Lemma round_frames n :
  py_round (Z.of_nat n # FRAME_RATE) = (Z.of_nat n + 4) / 9.
Proof.
  unfold py_round, FRAME_RATE.
  change (Qfloor (Z.of_nat n # 9)) with (Z.of_nat n / 9).
  set (a := Z.of_nat n).
  pose proof (Z.div_mod a 9 ltac:(lia)) as Hdm.
  pose proof (Z.mod_pos_bound a 9 ltac:(lia)) as Hm.
  unfold Qcompare, Qminus, Qplus, Qopp, inject_Z. simpl Qnum. simpl Qden.
  clearbody a. set (q := a / 9) in *. set (m := a mod 9) in *.
  clearbody q m.
  destruct (Z.compare_spec ((a * 1 + - q * 9) * 2) (1 * 9)) as [E|L|G].
  - exfalso. lia.
  - apply (Z.div_unique_pos _ 9 _ (m + 4)); lia.
  - apply (Z.div_unique_pos _ 9 _ (m - 5)); lia.
Qed.

(** X14: when the recording cannot be read, [update_metadata] raises that
    error and calls nothing.  When it can, exactly one [update_metadata]
    call is made, marked complete when no classification follows; the
    metadata holds the timestamp, the location only when latitude and
    longitude are both non-zero, the preview seconds only when they are
    non-zero, and the duration; the result is what the API call gives. *)
Theorem update_metadata_reports_once conf recording api s :
  (forall e, update_metadata conf recording api (Raise e) s = (Raise e, s)) /\
  (forall reader,
     let out := update_metadata conf recording api (Ret reader) s in
     exists metadata,
       fst out = update_metadata_reply api /\
       heap (snd out) = heap s /\
       calls (snd out)
         = calls s ++ [CallUpdateMetadata recording metadata
                         (negb (do_classify conf))] /\
       dict_get String.eqb "recordingDateTime" metadata
         = Some (MetaStr (timestamp_iso reader)) /\
       dict_get String.eqb "location" metadata
         = (if nonzero (latitude reader) && nonzero (longitude reader)
            then Some (MetaPair (latitude reader) (longitude reader))
            else None) /\
       dict_get String.eqb "additionalMetadata" metadata
         = (match preview_secs reader with
            | Some n =>
                if Z.eqb n 0 then None
                else Some (MetaObj [("previewSecs", MetaInt n)])
            | None => None
            end) /\
       dict_get String.eqb "duration" metadata
         = Some (MetaInt ((Z.of_nat (frames reader) + 4) / 9))).
Proof.
  split; [reflexivity|]. intros reader out. subst out.
  exists (build_metadata reader). simpl.
  split; [reflexivity|]. split; [reflexivity|]. split; [reflexivity|].
  unfold build_metadata. rewrite round_frames.
  destruct (nonzero (latitude reader) && nonzero (longitude reader));
    destruct (preview_secs reader) as [n|]; simpl;
    try destruct (Z.eqb n 0); simpl; repeat split; reflexivity.
Qed.

(** X15: the duration sent is the whole number of seconds nearest to the
    frame count at [FRAME_RATE] frames a second: nine times the duration is
    within four frames of the count. *)
Theorem duration_is_nearest_second reader :
  exists d,
    dict_get String.eqb "duration" (build_metadata reader) = Some (MetaInt d) /\
    9 * d - 4 <= Z.of_nat (frames reader) <= 9 * d + 4 /\
    0 <= d.
Proof.
  exists ((Z.of_nat (frames reader) + 4) / 9).
  split.
  - unfold build_metadata. rewrite round_frames.
    destruct (nonzero (latitude reader) && nonzero (longitude reader));
      destruct (preview_secs reader) as [n|]; simpl;
      try destruct (Z.eqb n 0); reflexivity.
  - pose proof (Z.div_mod (Z.of_nat (frames reader) + 4) 9 ltac:(lia)) as Hdm.
    pose proof (Z.mod_pos_bound (Z.of_nat (frames reader) + 4) 9 ltac:(lia)) as Hm.
    split; [lia|]. apply Z.div_pos; lia.
Qed.

(** * The main loop as a whole *)

Lemma poll_keeps_stage p w : stage (fst (snd (poll (p, w)))) = stage p.
Proof.
  rewrite poll_eq.
  destruct (reap_completed (p, w)) as [[u|e] [p1 w1]] eqn:Er;
    rewrite reap_completed_eq in Er; apply reap_loop_frame in Er;
    destruct Er as (E1 & E2 & E3 & E4 & _); unfold stage.
  - destruct (dict_len (in_progress p1) >=? num_workers p1); simpl.
    + now rewrite E1, E2, E3, E4.
    + destruct (job_source w1 (api_calls w1) (recording_type p1) (processing_state p1));
        simpl; now rewrite E1, E2, E3, E4.
  - simpl. now rewrite E1, E2, E3, E4.
Qed.

Lemma poll_all_keeps ps : forall i w,
  Forall tick_reachable ps ->
  Forall tick_reachable (snd (fst (poll_all i ps w))) /\
  map stage (snd (fst (poll_all i ps w))) = map stage ps.
Proof.
  induction ps as [|p rest IH]; intros i w Hr; [simpl; auto|].
  inversion Hr as [|? ? Hp Hrest]; subst. simpl poll_all.
  pose proof (reach_poll p (add_event (EvPoll i) w) Hp) as Hp'.
  pose proof (poll_keeps_stage p (add_event (EvPoll i) w)) as Hs.
  destruct (poll (p, add_event (EvPoll i) w)) as [[u|e] [p1 w1]]; simpl in Hp', Hs.
  - destruct (IH (S i) w1 Hrest) as [H1 H2].
    destruct (poll_all (S i) rest w1) as [[r2 rest2] w2]. simpl in *.
    split; [now constructor | now rewrite Hs, H2].
  - simpl. split; [now constructor | now rewrite Hs].
Qed.

Lemma main_loop_keeps snaps : forall ps w,
  Forall tick_reachable ps ->
  Forall tick_reachable (fst (main_loop snaps ps w)) /\
  map stage (fst (main_loop snaps ps w)) = map stage ps.
Proof.
  induction snaps as [|f rest IH]; intros ps w Hr; [simpl; auto|].
  simpl main_loop. unfold main_pass.
  destruct (poll_all_keeps ps 0%nat (with_futures f w) Hr) as [H1 H2].
  destruct (poll_all 0 ps (with_futures f w)) as [[r ps'] w']. simpl in H1, H2.
  destruct (IH ps' (add_event (EvSleep SLEEP_SECS)
                      match r with
                      | Ret _ => w'
                      | Raise e => add_event (EvLog ERROR (format_exc e)) w'
                      end) H1) as [H3 H4].
  split; [exact H3 | now rewrite H4].
Qed.

Lemma add_keeps_reachable rt ps f n processors :
  Forall tick_reachable processors ->
  Forall tick_reachable (add rt ps f n processors) /\
  map stage (add rt ps f n processors)
  = map stage processors ++ (if 1 <=? n then [(rt, ps, f, n)] else []).
Proof.
  intros Hr. unfold add. rewrite Z.ltb_antisym.
  destruct (1 <=? n) eqn:Hn; simpl.
  - split.
    + apply Forall_app. split; [exact Hr|]. constructor; [|constructor].
      apply (reach_add rt ps f n). unfold add.
      rewrite Z.ltb_antisym, Hn. reflexivity.
    + now rewrite map_app.
  - split; [exact Hr | now rewrite app_nil_r].
Qed.

Lemma tick_reachable_has_worker p : tick_reachable p -> 1 <= num_workers p.
Proof.
  induction 1 as [rt ps f n p Hadd | p w Hr IH].
  - unfold add in Hadd. destruct (n <? 1) eqn:Hn; [discriminate|].
    apply Z.ltb_ge in Hn. inversion Hadd; subst. exact Hn.
  - pose proof (poll_keeps_stage p w) as Hs. unfold stage in Hs.
    inversion Hs as [[H1 H2 H3 H4]]. now rewrite H4.
Qed.

(** X16: through any number of passes of [main], the processors are the
    configured stages with at least one worker, in the order toMp3,
    analyse, getMetadata, and each of them has at most [num_workers] jobs
    in flight. *)
Theorem main_runs_configured_stages_within_capacity conf snaps w :
  let processors := fst (main conf snaps w) in
  map stage processors = configured_stages conf /\
  Forall (fun p => 1 <= num_workers p /\
                   dict_len (in_progress p) <= num_workers p) processors.
Proof.
  unfold main.
  destruct (add_keeps_reachable "audio" "toMp3" audio_convert_process
              (audio_convert_workers conf) [] (Forall_nil _)) as [R1 S1].
  destruct (add_keeps_reachable "audio" "analyse" audio_analysis_process
              (audio_analysis_workers conf) _ R1) as [R2 S2].
  destruct (add_keeps_reachable "thermalRaw" "getMetadata" thermal_process
              (thermal_workers conf) _ R2) as [R3 S3].
  match goal with
  | |- context [main_loop snaps ?ps ?w0] =>
      destruct (main_loop_keeps snaps ps w0 R3) as [R4 S4]
  end.
  cbv zeta. split.
  - rewrite S4, S3, S2, S1. unfold configured_stages. simpl.
    now rewrite <- app_assoc.
  - eapply Forall_impl; [|exact R4]. intros p Hp. split.
    + now apply tick_reachable_has_worker.
    + now apply tick_reachable_bound.
Qed.

(** * An entry from submission to removal *)

(** X17: an entry of [in_progress] stays through every tick in which its
    future is still running, and is removed in the reap of the first tick
    whose loop gets to the entry and finds its future done, be the outcome
    a success or an error; as long as the job source does not hand the id
    out again, the id is not in the dictionary after that. *)
Theorem entry_leaves_when_reap_finds_it_done p w id h outcome
    (before : list (handle -> FutState)) (now : handle -> FutState) :
  dict_wf (in_progress p) ->
  dict_get Z.eqb id (in_progress p) = Some h ->
  hands_out_no_more id w ->
  (forall f, In f before -> f h = Pending) ->
  now h = Finished outcome ->
  let s1 := run_ticks before (p, w) in
  let w1 := with_futures now (snd s1) in
  In (id, h) (examined w1 (in_progress (fst s1))) ->
  (forall k,
     dict_get Z.eqb id
       (in_progress (fst (run_ticks (firstn k before) (p, w)))) = Some h) /\
  dict_get Z.eqb id
    (in_progress (fst (snd (reap_completed (fst s1, w1))))) = None /\
  (forall after,
     dict_get Z.eqb id
       (in_progress (fst (run_ticks after (snd (poll (fst s1, w1)))))) = None).
Proof.
  intros Hwf Hg Hsrc Hpend Hnow s1 w1 Hex.
  destruct (run_ticks_keeps before p w id h Hwf Hg Hpend Hsrc)
    as (Hwf1 & Hg1 & Hjs1 & Hle1).
  fold s1 in Hwf1, Hg1, Hjs1, Hle1.
  assert (Hsrc1 : hands_out_no_more id w1).
  { apply (hands_out_no_more_ext id w); [exact Hjs1 | exact Hle1 | exact Hsrc]. }
  assert (Hdone : is_done (futures w1 h) = true).
  { unfold w1. simpl. now rewrite Hnow. }
  pose proof (reap_removes_done (fst s1) w1 id h Hwf1 Hex Hdone) as Hgone.
  split; [|split].
  - intros k.
    apply (run_ticks_keeps (firstn k before) p w id h Hwf Hg); auto.
    intros f Hin. apply Hpend. now apply In_firstn in Hin.
  - exact Hgone.
  - intros after.
    pose proof (poll_wf (fst s1) w1 Hwf1) as Hwf2.
    pose proof (poll_job_source (fst s1) w1) as Hjs2.
    assert (Hg2 : dict_get Z.eqb id
                    (in_progress (fst (snd (poll (fst s1, w1))))) = None).
    { destruct (poll_in_progress (fst s1) w1 Hwf1) as [E | (r & Ej & E)];
        rewrite E; rewrite (reap_completed_spec _ _ Hwf1) in Hgone;
        simpl in Hgone; [exact Hgone|].
      rewrite (dict_get_set_other Z.eqb Zeqb_spec); [exact Hgone|].
      intros Eid. apply (Hsrc1 _ _ _ _ (le_n _) Ej). now symmetry. }
    pose proof (poll_api_calls_le (fst s1) w1) as Hle2.
    destruct (poll (fst s1, w1)) as [r [p2 w2]]. simpl in *.
    apply run_ticks_absent; auto.
    apply (hands_out_no_more_ext id w1); assumption.
Qed.

Lemma entry_leaves_when_reap_finds_it_done_witness :
  dict_get Z.eqb 10
    (in_progress
       (fst (snd (reap_completed
          (fst (run_ticks [all_pending] tracking10),
           with_futures one_failed_one_ok
             (snd (run_ticks [all_pending] tracking10))))))) = None.
Proof.
  refine (proj1 (proj2
    (entry_leaves_when_reap_finds_it_done (fst tracking10) (snd tracking10)
       10 0%nat _ [all_pending] one_failed_one_ok _ eq_refl _ _ eq_refl _))).
  - unfold dict_wf. simpl. repeat constructor; simpl; intuition discriminate.
  - intros n rt ps r Hn H. change (api_calls (snd tracking10)) with 1%nat in Hn.
    change (ApiJob {| rec_id := 10 + Z.of_nat n; rec_type := rt |} = ApiJob r) in H.
    assert (Er : r = {| rec_id := 10 + Z.of_nat n; rec_type := rt |}) by congruence.
    rewrite Er. change (10 + Z.of_nat n <> 10). lia.
  - intros f [<-|[]]. reflexivity.
  - vm_compute. left. reflexivity.
Defined.
